(** * Allan.js: the estimator engine of [Allan.Dataset]

    A shallow embedding of [src/allan.js].  JavaScript numbers are IEEE-754
    binary64 values, modelled by Rocq's primitive [float]; every arithmetic
    operation on sample data is the corresponding primitive operation, in the
    order in which the source evaluates it.

    Array indices, array lengths, loop counters and the averaging factor [m]
    are integers in the source's intended use; the arithmetic the source does
    on them is exact in binary64 below 2^53, and is modelled in [Z].  Where
    such an integer enters a floating-point expression it is converted with
    [num].  An averaging factor is either omitted ([undefined]) or an
    integer. *)

From Stdlib Require Import ZArith List Lia Floats String.
From Stdlib Require DecimalString.
From stdpp Require Import base option list gmap.

Local Open Scope Z_scope.

(** ** Numbers *)

(** Arithmetic on numbers is written in [float_scope]: [+], [-], [*] and [/]
    there are the binary64 operations. *)

(** The binary64 value nearest to the integer [z] (ties to even). *)
Definition num (z : Z) : float :=
  SF2Prim (binary_normalize prec emax z 0 false).
Arguments num z%_Z.

(** [a > b] on numbers; false as soon as one side is NaN. *)
Definition gt (a b : float) : bool := PrimFloat.ltb b a.

(** The number [z * 2^e], rounded to binary64; [scaled z 0] is [num z].
    For [z] other than 0 and below [2^53] in magnitude, [mant z] and
    [expo z + e] are its mantissa of 53 bits and its exponent. *)
Definition scaled (z e : Z) : float :=
  SF2Prim (binary_normalize prec emax z e false).



(** ** Values and arrays *)

(** The result of a property read: a number, or [undefined] ([None]). *)
Definition value := option float.

(** [ToNumber]: [undefined] becomes NaN in every arithmetic context. *)
Definition ToNumber (v : value) : float :=
  match v with Some f => f | None => nan end.

(** [a.length]. *)
Definition alen {A} (a : list A) : Z := Z.of_nat (length a).

(** [a[i]]: [undefined] outside [0 .. a.length - 1]. *)
Definition aget (a : list float) (i : Z) : value :=
  if i <? 0 then None else a !! Z.to_nat i.

(** [a[i]] used as an operand. *)
Definition rd (a : list float) (i : Z) : float := ToNumber (aget a i).
Arguments rd a i%_Z.

Notation "a .[ i ]" := (rd a i)
  (at level 1, i at level 200, left associativity, format "a .[ i ]").

(** [a[i] = v].  Inside the array the element is replaced; at [a.length] the
    array grows by one; beyond it JavaScript leaves holes, which read as
    [undefined] and so, in the numeric reads of this program, as NaN.  A
    negative [i] names a property that is not an element; this program never
    writes one, and the array is left as it is. *)
Definition aset (a : list float) (i : Z) (v : float) : list float :=
  if i <? 0 then a
  else if i <? alen a then <[Z.to_nat i := v]> a
  else a ++ replicate (Z.to_nat (i - alen a)) nan ++ [v].

(** ** The averaging factor *)

Inductive arg : Type :=
| omitted : arg
| given (m : Z) : arg.

(** [m || 1]: a falsy [m] ([undefined] or [0]) is replaced by [1]. *)
Definition or1 (m : arg) : Z :=
  match m with
  | omitted => 1
  | given 0 => 1
  | given m => m
  end.

(** ** Loops *)

(** [for (i = i0; cond(i); i += step) body].  [None] is a loop that does not
    come to an end within [fuel] iterations, or whose body does not.  The
    index is an integer: it is the index of the program as long as it stays
    within [-2^53 .. 2^53], where [i += step] on numbers is exact; with
    arrays of fewer than [2^32] elements that is every loop of this program
    for [|m| <= 2^51]. *)
Fixpoint for_loop {St : Type} (fuel : nat) (cond : Z -> bool) (step : Z)
    (body : Z -> St -> option St) (i : Z) (s : St) : option (Z * St) :=
  if cond i then
    match fuel with
    | O => None
    | S k =>
        match body i s with
        | Some s' => for_loop k cond step body (i + step) s'
        | None => None
        end
    end
  else Some (i, s).

(** [for (i = i0; i < bound; i += step) body].  With [step >= 1] the loop
    runs at most [bound - i0] times, so this fuel never runs out; with
    [step <= 0] and [i0 < bound] the source loop does not terminate, and the
    model answers [None]. *)
Definition for_lt {St : Type} (bound step : Z)
    (body : Z -> St -> option St) (i0 : Z) (s : St) : option (Z * St) :=
  for_loop (Z.to_nat (bound - i0)) (fun i => i <? bound) step body i0 s.

(** ** The dataset *)

(** The property names of [this.values]. *)
Inductive stat : Type :=
| xavg | xmax | xmin | yavg | ymax | ymin | stdev
| adev | oadev | mdev | tdev | hdev | ohdev
| totdev | mtotdev | ttotdev | htotdev.

Definition stat_index (s : stat) : nat :=
  match s with
  | xavg => 0 | xmax => 1 | xmin => 2 | yavg => 3 | ymax => 4 | ymin => 5
  | stdev => 6 | adev => 7 | oadev => 8 | mdev => 9 | tdev => 10
  | hdev => 11 | ohdev => 12 | totdev => 13 | mtotdev => 14
  | ttotdev => 15 | htotdev => 16
  end%nat.

Definition stat_of_index (n : nat) : stat :=
  match n with
  | 0 => xavg | 1 => xmax | 2 => xmin | 3 => yavg | 4 => ymax | 5 => ymin
  | 6 => stdev | 7 => adev | 8 => oadev | 9 => mdev | 10 => tdev
  | 11 => hdev | 12 => ohdev | 13 => totdev | 14 => mtotdev
  | 15 => ttotdev | _ => htotdev
  end%nat.

#[global] Instance stat_eq_dec : EqDecision stat.
Proof. solve_decision. Defined.

#[global] Instance stat_countable : Countable stat.
Proof.
  apply (inj_countable' stat_index stat_of_index).
  intros []; reflexivity.
Defined.

(** [this.values]: seventeen sparse arrays indexed by the averaging factor,
    kept as one finite map from (property, index) to the stored number.  An
    absent key is an element that reads [undefined]. *)
Abbreviation cache := (gmap (stat * Z) float).

Record Dataset : Type := mkDataset {
  id : Z;
  name : string;
  x : list float;
  y : list float;
  values : cache
}.

(** [this.values.s[m] = v]. *)
Definition store (s : stat) (m : Z) (v : float) (d : Dataset) : Dataset :=
  {| id := id d; name := name d; x := x d; y := y d;
     values := <[(s, m) := v]> (values d) |}.

(** The pattern every getter is written in:
    [if (this.values.s[m] === undefined) { this.values.s[m] = <compute> }
     return this.values.s[m];] *)
Definition memo (s : stat) (m : Z)
    (compute : Dataset -> option (float * Dataset)) (d : Dataset)
    : option (float * Dataset) :=
  match values d !! (s, m) with
  | Some v => Some (v, d)
  | None =>
      match compute d with
      | Some (v, d') => Some (v, store s m v d')
      | None => None
      end
  end.

(** [var MIN_SAMPLES = 3]. *)
Definition MIN_SAMPLES : Z := 3.

(** [Math.sqrt(3)] and the bias factor [0.73] of [getMtotdev] (the
    binary64 value nearest to 0.73). *)
Definition sqrt3 : float := sqrt 3%float.
Definition bias : float := 0x1.75c28f5c28f5cp-1%float.

(** [for (i = i0; i <= last; i += step) body]. *)
Definition for_le {St : Type} (last step : Z)
    (body : Z -> St -> option St) (i0 : Z) (s : St) : option (Z * St) :=
  for_lt (last + 1) step body i0 s.

(** ** Construction and loading *)

(** [new Allan.Dataset(name)]: [datasetId] is the module's counter, [now]
    the text of the current date, the fallback for a falsy [name]. *)
Definition Dataset_new (datasetId : Z) (nm : option string) (now : string)
    : Z * Dataset :=
  let i := datasetId + 1 in
  (i, {| id := i;
         name := match nm with
                 | Some s => if decide (s = EmptyString) then now else s
                 | None => now
                 end;
         x := []; y := []; values := ∅ |}).

(** [phaseToFreq(x, m)]; the loop condition is [i + 1 < len]. *)
Definition phaseToFreq (x : list float) (m : arg) : option (list float) :=
  let m := or1 m in
  '(_, y) ← for_lt (alen x - 1) 1
    (fun i y => Some (aset y i ((x.[i + 1] - x.[i]) / num m)%float))
    0 [];
  Some y.

(** [freqToPhase(y, m)]. *)
Definition freqToPhase (y : list float) (m : arg) : option (list float) :=
  let m := or1 m in
  '(_, x) ← for_le (alen y) 1
    (fun i x => Some (aset x i (x.[i - 1] + y.[i - 1] * num m)%float))
    1 [zero];
  Some x.

Definition loadPhaseFromArray (phase : list float) (d : Dataset)
    : option Dataset :=
  f ← phaseToFreq phase omitted;
  Some {| id := id d; name := name d; x := phase; y := f;
          values := values d |}.

Definition loadFreqFromArray (freq : list float) (d : Dataset)
    : option Dataset :=
  p ← freqToPhase freq omitted;
  Some {| id := id d; name := name d; x := p; y := freq;
          values := values d |}.

(** ** Windowed statistics *)

(** [_arrayAvg(i, m, a)].  Its [i || 0] and [m || 0] leave integers as they
    are. *)
Definition _arrayAvg (i m : Z) (a : list float) : option float :=
  '(_, avg) ← for_lt m 1 (fun j avg => Some (avg + a.[i + j])%float) 0 zero;
  Some (avg / num m)%float.

Definition _phaseAvg (i m : Z) (d : Dataset) : option float :=
  _arrayAvg i m (x d).

Definition _freqAvg (i m : Z) (d : Dataset) : option float :=
  _arrayAvg i m (y d).

(** The loop shared by [getPhaseAvg] and [getFreqAvg]:
    [for (i = 0; i < len; i += m) sum += avg(i, m)]. *)
Definition avg_loop (a : list float) (m : Z) : option (Z * float) :=
  for_lt (alen a) m
    (fun i sum => v ← _arrayAvg i m a; Some (sum + v)%float)
    0 zero.

Definition getPhaseAvg (m : arg) (d : Dataset) : option (float * Dataset) :=
  let len := alen (x d) in
  let m := or1 m in
  memo xavg m
    (fun d =>
       '(_, sum) ← avg_loop (x d) m;
       Some ((sum * num m / num len)%float, d)) d.

Definition getFreqAvg (m : arg) (d : Dataset) : option (float * Dataset) :=
  let len := alen (y d) in
  let m := or1 m in
  memo yavg m
    (fun d =>
       '(_, sum) ← avg_loop (y d) m;
       Some ((sum * num m / num len)%float, d)) d.

(** The loop of the four extremum getters.  The source keeps the running
    extremum in the cache entry itself, set to [init] before the loop; the
    entry after the loop is the value returned here. *)
Definition ext_loop (better : float -> float -> bool) (init : float)
    (a : list float) (m : Z) : option (Z * float) :=
  for_lt (alen a) m
    (fun i cur => v ← _arrayAvg i m a; Some (if better v cur then v else cur))
    0 init.

Definition getPhaseMax (m : arg) (d : Dataset) : option (float * Dataset) :=
  let m := or1 m in
  memo xmax m
    (fun d => '(_, r) ← ext_loop gt neg_infinity (x d) m; Some (r, d)) d.

Definition getFreqMax (m : arg) (d : Dataset) : option (float * Dataset) :=
  let m := or1 m in
  memo ymax m
    (fun d => '(_, r) ← ext_loop gt neg_infinity (y d) m; Some (r, d)) d.

Definition getPhaseMin (m : arg) (d : Dataset) : option (float * Dataset) :=
  let m := or1 m in
  memo xmin m
    (fun d => '(_, r) ← ext_loop PrimFloat.ltb infinity (x d) m;
              Some (r, d)) d.

Definition getFreqMin (m : arg) (d : Dataset) : option (float * Dataset) :=
  let m := or1 m in
  memo ymin m
    (fun d => '(_, r) ← ext_loop PrimFloat.ltb infinity (y d) m;
              Some (r, d)) d.

Definition getStdev (m : arg) (d : Dataset) : option (float * Dataset) :=
  let len := alen (y d) in
  let m := or1 m in
  memo stdev m
    (fun d =>
       '(a, d) ← getFreqAvg (given m) d;
       '(_, sum) ← for_lt len m
         (fun i sum =>
            b ← _freqAvg i m d;
            let v := (b - a)%float in Some (sum + v * v)%float)
         0 zero;
       Some (sqrt (sum / (num len / num m - 1))%float, d)) d.

(** ** Classical deviation estimators *)

(** [x[i+2m] - 2*x[i+m] + x[i]] and
    [x[i+3m] - 3*x[i+2m] + 3*x[i+m] - x[i]]. *)
Definition diff2 (x : list float) (m i : Z) : float :=
  (x.[i + 2 * m] - 2 * x.[i + m] + x.[i])%float.

Definition diff3 (x : list float) (m i : Z) : float :=
  (x.[i + 3 * m] - 3 * x.[i + 2 * m] + 3 * x.[i + m] - x.[i])%float.

(** The loop [for (i = 0; i < bound; i += step) { v = diff(i); sum += v * v;
    n++ }] of [getAdev], [getOadev], [getHdev] and [getOhdev]: the pair
    ([sum], [n]) it leaves. *)
Definition sq_loop (diff : Z -> float) (bound step : Z)
    : option (Z * (float * Z)) :=
  for_lt bound step
    (fun i '(sum, n) => let v := diff i in Some ((sum + v * v)%float, n + 1))
    0 (zero, 0).

Definition adev_loop (x : list float) (m : Z) : option (Z * (float * Z)) :=
  sq_loop (diff2 x m) (alen x - 2 * m) 1.

Definition getAdev (m : arg) (d : Dataset) : option (float * Dataset) :=
  let m := or1 m in
  memo adev m
    (fun d =>
       '(_, (sum, n)) ← adev_loop (x d) m;
       Some (if n >? MIN_SAMPLES
             then (sqrt (sum / (2 * num n)) / num m)%float
             else zero, d)) d.

Definition oadev_loop (x : list float) (m : Z) : option (Z * (float * Z)) :=
  sq_loop (diff2 x m) (alen x - 2 * m) m.

Definition getOadev (m : arg) (d : Dataset) : option (float * Dataset) :=
  let m := or1 m in
  memo oadev m
    (fun d =>
       '(_, (sum, n)) ← oadev_loop (x d) m;
       Some (if n >? MIN_SAMPLES
             then (sqrt (sum / (2 * num n)) / num m)%float
             else zero, d)) d.

(** The two loops of [getMdev]: ([sum], [n]) after them. *)
Definition mdev_loop (x : list float) (m : Z) : option (float * Z) :=
  let len := alen x in
  '(_, v) ← for_loop (Z.to_nat m)
    (fun i => (i <? len - 2 * m) && (i <? m)) 1
    (fun i v => Some (v + diff2 x m i)%float)
    0 zero;
  let sum := (0 + v * v)%float in
  let n := 0 + 1 in
  '(_, (v, sum, n)) ← for_lt (len - 3 * m) 1
    (fun i '(v, sum, n) =>
       let v := (v + diff3 x m i)%float in
       Some (v, (sum + v * v)%float, n + 1))
    0 (v, sum, n);
  Some (sum, n).

Definition getMdev (m : arg) (d : Dataset) : option (float * Dataset) :=
  let m := or1 m in
  memo mdev m
    (fun d =>
       '(sum, n) ← mdev_loop (x d) m;
       Some (if n >? MIN_SAMPLES
             then (sqrt (sum / (2 * num m * num m * num n)) / num m)%float
             else zero, d)) d.

Definition getTdev (m : arg) (d : Dataset) : option (float * Dataset) :=
  let m := or1 m in
  memo tdev m
    (fun d =>
       '(dev, d) ← getMdev (given m) d;
       Some ((dev * num m / sqrt3)%float, d)) d.

Definition hdev_loop (x : list float) (m : Z) : option (Z * (float * Z)) :=
  sq_loop (diff3 x m) (alen x - 3 * m) 1.

Definition getHdev (m : arg) (d : Dataset) : option (float * Dataset) :=
  let m := or1 m in
  memo hdev m
    (fun d =>
       '(_, (sum, n)) ← hdev_loop (x d) m;
       Some (if n >? MIN_SAMPLES
             then (sqrt (sum / (6 * num n)) / num m)%float
             else zero, d)) d.

Definition ohdev_loop (x : list float) (m : Z) : option (Z * (float * Z)) :=
  sq_loop (diff3 x m) (alen x - 3 * m) m.

Definition getOhdev (m : arg) (d : Dataset) : option (float * Dataset) :=
  let m := or1 m in
  memo ohdev m
    (fun d =>
       '(_, (sum, n)) ← ohdev_loop (x d) m;
       Some (if n >? MIN_SAMPLES
             then (sqrt (sum / (6 * num n)) / num m)%float
             else zero, d)) d.

(** ** Total-variance family *)

(** The first loop of [getTotdev]: [nx] after the reflections, and [e]. *)
Definition totdev_extend (x : list float) : option (Z * (list float * Z)) :=
  let len := alen x in
  for_lt (len - 1) 1
    (fun i '(nx, e) =>
       let nx := (2 * x.[0] - x.[i])%float :: nx in
       let nx := nx ++ [(2 * x.[len - 1] - x.[len - 1 - i])%float] in
       Some (nx, e + 1))
    1 (x, 0).

(** Both loops and the guard of [getTotdev]: ([sum], [n]) before the final
    test. *)
Definition totdev_loop (x : list float) (m : Z) : option (float * Z) :=
  let len := alen x in
  '(_, (nx, e)) ← totdev_extend x;
  if e + len + m - 1 <=? 3 * len - 4 then
    '(_, (sum, n)) ← for_lt (len - 1) 1
      (fun i '(sum, n) =>
         let v := (nx.[e + i - m] - 2 * nx.[e + i] + nx.[e + i + m])%float in
         Some ((sum + v * v)%float, n + 1))
      1 (zero, 0);
    Some ((sum / 2)%float, n)
  else Some (zero, 0).

Definition getTotdev (m : arg) (d : Dataset) : option (float * Dataset) :=
  let m := or1 m in
  memo totdev m
    (fun d =>
       '(sum, n) ← totdev_loop (x d) m;
       Some (if n >? MIN_SAMPLES
             then (sqrt (sum / num n) / num m)%float
             else zero, d)) d.

(** [Math.floor((3 * m + 1) / 2)], which [getMtotdev] and [getHtotdev]
    evaluate in their [var] list, before [m = m || 1]: NaN ([None]) when [m]
    is omitted. *)
Definition half_of (m : arg) : option Z :=
  match m with
  | omitted => None
  | given m => Some (Z.div (3 * m + 1) 2)
  end.

(** A number that is an integer or NaN, as an operand and as an index. *)
Definition onum (h : option Z) : float :=
  match h with Some z => num z | None => nan end.

Definition ord (a : list float) (i : option Z) : float :=
  match i with Some i => a.[i] | None => nan end.

(** One turn of the outer loop of [getMtotdev] and [getHtotdev] at window
    start [n]: the [sum] it computes for that window. *)
Definition tot_window (a : list float) (half : option Z) (m n : Z)
    : option float :=
  '(i, f) ← for_lt (Z.div (3 * m) 2) 1
    (fun i f =>
       Some (f + (ord a ((fun h => n + i + h)%Z <$> half) - a.[n + i])
                  / onum half)%float)
    0 zero;
  let f := (f / num i)%float in
  '(_, zx) ← for_le (3 * m - 1) 1
    (fun i zx => Some (aset zx i (a.[n + i] - f * num i)%float))
    0 [];
  '(_, nx) ← for_le (3 * m - 1) 1
    (fun i nx =>
       let nx := aset nx (n + i) zx.[3 * m - i - 1] in
       let nx := aset nx (n + 3 * m + i) zx.[i] in
       let nx := aset nx (n + 6 * m + i) zx.[3 * m - i - 1] in
       Some nx)
    0 [];
  '(_, sum) ← for_le (n + 3 * m - 1) 1
    (fun i sum =>
       '(_, (av1, av2, av3)) ← for_lt m 1
         (fun j '(av1, av2, av3) =>
            Some ((av1 + nx.[i + 3 * m + j])%float,
                  (av2 + nx.[i + 3 * m + m + j])%float,
                  (av3 + nx.[i + 3 * m + 2 * m + j])%float))
         0 (zero, zero, zero);
       let av1 := (av1 / num m)%float in
       let av2 := (av2 / num m)%float in
       let av3 := (av3 / num m)%float in
       let v := (av1 - 2 * av2 + av3)%float in
       Some (sum + v * v)%float)
    (n - 3 * m) zero;
  Some sum.

(** The outer loop: the final [n] and the accumulated [d]. *)
Definition tot_loop (a : list float) (half : option Z) (m : Z)
    : option (Z * float) :=
  for_lt (alen a - 3 * m + 1) 1
    (fun n d => sum ← tot_window a half m n;
               Some (d + sum / 6 * num m)%float)
    0 zero.

Definition getMtotdev (m : arg) (d : Dataset) : option (float * Dataset) :=
  let len := alen (x d) in
  let half := half_of m in
  let m := or1 m in
  memo mtotdev m
    (fun d =>
       '(n, dd) ← tot_loop (x d) half m;
       let dd := (dd / (2 * num (len - 3 * m + 1)))%float in
       Some (if n >? MIN_SAMPLES
             then (sqrt (dd / bias) / (num m * num m))%float
             else zero, d)) d.

Definition getTtotdev (m : arg) (d : Dataset) : option (float * Dataset) :=
  let m := or1 m in
  memo ttotdev m
    (fun d =>
       '(dev, d) ← getMtotdev (given m) d;
       Some ((dev * num m / sqrt3)%float, d)) d.

Definition getHtotdev (m : arg) (d : Dataset) : option (float * Dataset) :=
  let len := alen (y d) in
  let half := half_of m in
  let m := or1 m in
  memo htotdev m
    (fun d =>
       '(n, dd) ← tot_loop (y d) half m;
       let dd := (dd / (6 * num (len - 3 * m + 1)))%float in
       Some (if n >? MIN_SAMPLES then sqrt dd else zero, d)) d.

(** ** Arrays as objects

    [getTotdev] is the one getter that changes an array in place, with
    [unshift] and [push].  Its first loop is written here once more over a
    store of array objects, so that one can say which object it changes. *)

Abbreviation loc := positive.
Abbreviation heap := (gmap loc (list float)).

(** [a.slice(0)]: a new object with the elements of [a]. *)
Definition slice0 (a : loc) (h : heap) : option (loc * heap) :=
  elts ← h !! a;
  let a' := fresh (dom h) in
  Some (a', <[a' := elts]> h).

(** [a.unshift(v)] and [a.push(v)]. *)
Definition unshift (a : loc) (v : float) (h : heap) : option heap :=
  elts ← h !! a; Some (<[a := v :: elts]> h).

Definition push (a : loc) (v : float) (h : heap) : option heap :=
  elts ← h !! a; Some (<[a := elts ++ [v]]> h).

(** [a[i]] as an operand. *)
Definition elt (a : loc) (i : Z) (h : heap) : float :=
  match h !! a with Some elts => elts.[i] | None => nan end.
Arguments elt a i%_Z h.

(** [len = this.x.length, nx = this.x.slice(0)] and the first loop of
    [getTotdev], [this.x] being the object [this_x]: the object [nx], [e]
    and the store afterwards. *)
Definition totdev_extend_on (this_x : loc) (h : heap)
    : option (loc * Z * heap) :=
  elts ← h !! this_x;
  let len := alen elts in
  '(nx, h) ← slice0 this_x h;
  '(_, (h, e)) ← for_lt (len - 1) 1
    (fun i '(h, e) =>
       h ← unshift nx (2 * elt this_x 0 h - elt this_x i h)%float h;
       h ← push nx
             (2 * elt this_x (len - 1) h
              - elt this_x (len - 1 - i) h)%float h;
       Some (h, e + 1))
    1 (h, 0);
  Some (nx, e, h).

(** ** The getters, by name *)

Inductive getter : Type :=
| GPhaseAvg | GPhaseMax | GPhaseMin | GFreqAvg | GFreqMax | GFreqMin
| GStdev | GAdev | GOadev | GMdev | GTdev | GHdev | GOhdev
| GTotdev | GMtotdev | GTtotdev | GHtotdev.

#[global] Instance getter_eq_dec : EqDecision getter.
Proof. solve_decision. Defined.

Definition run (g : getter) : arg -> Dataset -> option (float * Dataset) :=
  match g with
  | GPhaseAvg => getPhaseAvg | GPhaseMax => getPhaseMax
  | GPhaseMin => getPhaseMin | GFreqAvg => getFreqAvg
  | GFreqMax => getFreqMax | GFreqMin => getFreqMin
  | GStdev => getStdev | GAdev => getAdev | GOadev => getOadev
  | GMdev => getMdev | GTdev => getTdev | GHdev => getHdev
  | GOhdev => getOhdev | GTotdev => getTotdev | GMtotdev => getMtotdev
  | GTtotdev => getTtotdev | GHtotdev => getHtotdev
  end.

(** The entry of [this.values] a getter keeps its own result in. *)
Definition own (g : getter) : stat :=
  match g with
  | GPhaseAvg => xavg | GPhaseMax => xmax | GPhaseMin => xmin
  | GFreqAvg => yavg | GFreqMax => ymax | GFreqMin => ymin
  | GStdev => stdev | GAdev => adev | GOadev => oadev | GMdev => mdev
  | GTdev => tdev | GHdev => hdev | GOhdev => ohdev | GTotdev => totdev
  | GMtotdev => mtotdev | GTtotdev => ttotdev | GHtotdev => htotdev
  end.

(** ** Operations on a dataset, and the datasets a program can build *)

Inductive op : Type :=
| LoadPhase (phase : list float)
| LoadFreq (freq : list float)
| Get (g : getter) (m : arg).

Definition exec (o : op) (d : Dataset) : option Dataset :=
  match o with
  | LoadPhase a => loadPhaseFromArray a d
  | LoadFreq a => loadFreqFromArray a d
  | Get g m => snd <$> run g m d
  end.

Inductive reachable : Dataset -> Prop :=
| reach_new (c : Z) (nm : option string) (now : string) :
    reachable (snd (Dataset_new c nm now))
| reach_step (d d' : Dataset) (o : op) :
    reachable d -> exec o d = Some d' -> reachable d'.

(** ** Loading from a URL *)

(** [s.split('\r\n')], [cur] being the piece read so far: the pieces between
    the occurrences of carriage return, line feed. *)
Definition CR : Ascii.ascii := Ascii.ascii_of_nat 13.
Definition LF : Ascii.ascii := Ascii.ascii_of_nat 10.

Fixpoint split_crlf (cur s : string) : list string :=
  match s with
  | EmptyString => [cur]
  | String c rest =>
      match rest with
      | String c' rest' =>
          if Ascii.eqb c CR && Ascii.eqb c' LF
          then cur :: split_crlf EmptyString rest'
          else split_crlf (String.append cur (String c EmptyString)) rest
      | EmptyString =>
          split_crlf (String.append cur (String c EmptyString)) rest
      end
  end.

(** [a[i]] on an array of strings. *)
Definition line (a : list string) (i : Z) : option string :=
  if i <? 0 then None else a !! Z.to_nat i.

Section FromURL.

(** [parseFloat], a function of the language: NaN where the text does not
    begin with a number. *)
Variable parseFloat : string -> float.

(** The loop of the [onreadystatechange] handlers:
    [n = parseFloat(a[i]); if (!isNaN(n)) x.push(n)]. *)
Definition parse_lines (a : list string) : option (Z * list float) :=
  for_lt (alen a) 1
    (fun i x =>
       let n := match line a i with
                | Some s => parseFloat s
                | None => nan
                end in
       Some (if is_nan n then x else x ++ [n]))
    0 [].

(** [loadPhaseFromURL(url)] and [loadFreqFromURL(url)].  The request is
    synchronous; [response] is the text it delivers, and the handler acts
    once, when [readyState] is 4. *)
Definition loadPhaseFromURL (response : string) (d : Dataset)
    : option Dataset :=
  '(_, x) ← parse_lines (split_crlf EmptyString response);
  loadPhaseFromArray x d.

Definition loadFreqFromURL (response : string) (d : Dataset)
    : option Dataset :=
  '(_, y) ← parse_lines (split_crlf EmptyString response);
  loadFreqFromArray y d.

End FromURL.

(** ** Plots of the samples *)

(** What [getPhasePlot] and [getFreqPlot] return:
    [{ values: [{ label, data }],
       options: { series: { lines: { show }, points: { show } } } }]. *)
Record series_plot : Type := mkSeries {
  label : string;
  data : list (Z * float)
}.

Record flot : Type := mkFlot {
  plot_values : list series_plot;
  lines_show : bool;
  points_show : bool
}.

(** The text of an integer in a string concatenation (below 10^21, where
    JavaScript writes all the digits). *)
Definition text_of (m : Z) : string :=
  DecimalString.NilZero.string_of_int (Z.to_int m).

(** The loop [for (i = 0; i < len; i += m) d.push([i, avg(i, m)])]. *)
Definition plot_loop (a : list float) (m : Z)
    : option (Z * list (Z * float)) :=
  for_lt (alen a) m
    (fun i d => v ← _arrayAvg i m a; Some (d ++ [(i, v)]))
    0 [].

Definition getPhasePlot (m : arg) (d : Dataset) : option flot :=
  let m := or1 m in
  '(_, pts) ← plot_loop (x d) m;
  Some {| plot_values :=
            [{| label := String.append "x(" (String.append (text_of m) ")");
                data := pts |}];
          lines_show := true; points_show := true |}.

Definition getFreqPlot (m : arg) (d : Dataset) : option flot :=
  let m := or1 m in
  '(_, pts) ← plot_loop (y d) m;
  Some {| plot_values :=
            [{| label := String.append "y(" (String.append (text_of m) ")");
                data := pts |}];
          lines_show := true; points_show := true |}.

(** ** Loops as folds *)

(** The indices a loop [for (i = i0; i < bound; i += step)] visits. *)
Definition steps (i0 bound step : Z) : list Z :=
  (fun k => i0 + k * step) <$> seqZ 0 ((bound - i0 - 1) `div` step + 1).

(** Running a body over a list of indices. *)
Fixpoint foldM {St : Type} (body : Z -> St -> option St) (l : list Z)
    (s : St) : option St :=
  match l with
  | [] => Some s
  | i :: l =>
      match body i s with
      | Some s' => foldM body l s'
      | None => None
      end
  end.

(** * What the specification says

    The definitions of this part follow the wording of the specification;
    the theorems below compare them with the code above. *)

(** A sum accumulated from [0], term after term. *)
Definition fsum (l : list float) : float := fold_left PrimFloat.add l zero.

(** The multiples of [m] below [len]: [0, m, 2m, ...]. *)
Definition block_starts (len m : Z) : list Z :=
  (fun k => k * m) <$> seqZ 0 ((len + m - 1) `div` m).

(** ADEV: [v = x[i+2m] - 2x[i+m] + x[i]] for every [0 <= i < N - 2m],
    [sum(v^2)], their number [n]; [sqrt(sum / (2n)) / m] if [n > 3], else
    [0]. *)
Definition adev_terms (x : list float) (m : Z) : list float :=
  (fun i => let v := (x.[i + 2 * m] - 2 * x.[i + m] + x.[i])%float in
            (v * v)%float)
    <$> seqZ 0 (alen x - 2 * m).

Definition adev_spec (x : list float) (m : Z) : float :=
  let n := alen (adev_terms x m) in
  if 3 <? n
  then (sqrt (fsum (adev_terms x m) / (2 * num n)) / num m)%float
  else zero.

(** The windowed average: the block averages [mean(a[i .. i+m-1])] at
    [i = 0, m, 2m, ...] below [len], summed, times [m], over [len].  The
    mean is the sum of the [m] elements over [m]; an element beyond the end
    of [a] reads [undefined], and a block that has one has mean NaN. *)
Definition block_mean (a : list float) (m i : Z) : float :=
  (fsum ((fun j => a.[i + j]) <$> seqZ 0 m) / num m)%float.

Definition avg_spec (a : list float) (m : Z) : float :=
  (fsum (block_mean a m <$> block_starts (alen a) m) * num m
   / num (alen a))%float.

(** TOTDEV: [x] with [2*x[0] - x[i]] put in front and
    [2*x[N-1] - x[N-1-i]] put behind, for [i = 1 .. N-2]. *)
Definition mirror (x : list float) : list float :=
  let N := alen x in
  rev ((fun i => (2 * x.[0] - x.[i])%float) <$> seqZ 1 (N - 2))
  ++ x
  ++ ((fun i => (2 * x.[N - 1] - x.[N - 1 - i])%float) <$> seqZ 1 (N - 2)).

(** Under the guard, the centred second differences at [i = 1 .. N-2] over
    the extended array, their squares summed and the sum halved;
    [sqrt(sum / n) / m] if [n > 3]; [0] if not, and [0] when the guard
    fails. *)
Definition totdev_spec (x : list float) (m : Z) : float :=
  let N := alen x in
  let e := N - 2 in
  let nx := mirror x in
  if e + N + m - 1 <=? 3 * N - 4 then
    let terms :=
      (fun i =>
         let v := (nx.[e + i - m] - 2 * nx.[e + i] + nx.[e + i + m])%float in
         (v * v)%float) <$> seqZ 1 (N - 2) in
    let sum := (fsum terms / 2)%float in
    let n := alen terms in
    if 3 <? n then (sqrt (sum / num n) / num m)%float else zero
  else zero.

(** ** Notions the statements below are phrased in *)

(** The eight estimators that test a count [n] against [MIN_SAMPLES]. *)
Inductive estimator : Type :=
| EAdev | EOadev | EMdev | EHdev | EOhdev | ETotdev | EMtotdev | EHtotdev.

Definition est_getter (e : estimator) : getter :=
  match e with
  | EAdev => GAdev | EOadev => GOadev | EMdev => GMdev | EHdev => GHdev
  | EOhdev => GOhdev | ETotdev => GTotdev | EMtotdev => GMtotdev
  | EHtotdev => GHtotdev
  end.

(** The [n] an estimator has when it reaches its test [n > MIN_SAMPLES]. *)
Definition term_count (e : estimator) (d : Dataset) (m : Z) : option Z :=
  match e with
  | EAdev => (fun r => snd (snd r)) <$> adev_loop (x d) m
  | EOadev => (fun r => snd (snd r)) <$> oadev_loop (x d) m
  | EMdev => snd <$> mdev_loop (x d) m
  | EHdev => (fun r => snd (snd r)) <$> hdev_loop (x d) m
  | EOhdev => (fun r => snd (snd r)) <$> ohdev_loop (x d) m
  | ETotdev => snd <$> totdev_loop (x d) m
  | EMtotdev => fst <$> tot_loop (x d) (half_of (given m)) m
  | EHtotdev => fst <$> tot_loop (y d) (half_of (given m)) m
  end.

(** How often [for (i = 0; i < bound; i += step)] runs its body. *)
Definition loop_trips (bound step : Z) : option Z :=
  snd <$> for_lt bound step (fun _ k => Some (k + 1)) 0 0.

(** The two sample arrays and their windowed getters. *)
Inductive series : Type := Phase | Freq.

Definition samples (s : series) (d : Dataset) : list float :=
  match s with Phase => x d | Freq => y d end.

Definition avg_of (s : series) : getter :=
  match s with Phase => GPhaseAvg | Freq => GFreqAvg end.

Definition max_of (s : series) : getter :=
  match s with Phase => GPhaseMax | Freq => GFreqMax end.

Definition min_of (s : series) : getter :=
  match s with Phase => GPhaseMin | Freq => GFreqMin end.

(** The entries of [this.values] a getter may write: its own and, where it
    calls another getter, that one's. *)
Definition writes (g : getter) : list stat :=
  match g with
  | GStdev => [stdev; yavg]
  | GTdev => [tdev; mdev]
  | GTtotdev => [ttotdev; mtotdev]
  | g => [own g]
  end.

(** [d'] is [d] with entries added to [this.values] at the keys [ks], and
    nothing else changed. *)
Definition extends (ks : list (stat * Z)) (d d' : Dataset) : Prop :=
  id d' = id d /\ name d' = name d /\ x d' = x d /\ y d' = y d
  /\ (forall k, k ∉ ks -> values d' !! k = values d !! k)
  /\ (forall k w, values d !! k = Some w -> values d' !! k = Some w).

(** Whenever [values.tdev[k]] is set, [values.mdev[k]] is, and the former
    was computed from the latter. *)
Definition tdev_from_mdev (d : Dataset) : Prop :=
  forall k t,
    values d !! (tdev, k) = Some t ->
    exists v, values d !! (mdev, k) = Some v
              /\ t = (v * num k / sqrt3)%float.

(** The same dataset with nothing memoized, and what a getter computes
    from the sample arrays alone. *)
Definition clear (d : Dataset) : Dataset :=
  {| id := id d; name := name d; x := x d; y := y d; values := ∅ |}.

Definition computed (g : getter) (k : Z) (d : Dataset) : option float :=
  fst <$> run g (given k) (clear d).

(** The getters that use [m] only after [m = m || 1], directly and in the
    getter they call. *)
Definition coerces (g : getter) : bool :=
  match g with
  | GMtotdev | GTtotdev | GHtotdev => false
  | _ => true
  end.

(** The getters that call no other getter. *)
Definition calls_none (g : getter) : bool :=
  match g with
  | GStdev | GTdev | GTtotdev => false
  | _ => true
  end.

(** Every memoized entry of such a getter is what the getter computes from
    the sample arrays as they are now. *)
Definition settled (d : Dataset) : Prop :=
  forall g k w,
    coerces g = true -> k <> 0 ->
    values d !! (own g, k) = Some w -> computed g k d = Some w.

(** The two total-variance getters that test their count store [0] when it
    is too small, whatever [half] they worked with. *)
Definition tot_gated (d : Dataset) : Prop :=
  forall k w,
    k <> 0 ->
    (values d !! (mtotdev, k) = Some w ->
     alen (x d) - 3 * k + 1 <= 3 -> w = zero)
    /\ (values d !! (htotdev, k) = Some w ->
        alen (y d) - 3 * k + 1 <= 3 -> w = zero).

(** The life of a dataset as the specification has it: created, loaded
    once, then queried any number of times. *)
Inductive loaded_once : Dataset -> Prop :=
| once_phase (c : Z) (nm : option string) (now : string) (a : list float)
    (d : Dataset) :
    loadPhaseFromArray a (snd (Dataset_new c nm now)) = Some d ->
    loaded_once d
| once_freq (c : Z) (nm : option string) (now : string) (a : list float)
    (d : Dataset) :
    loadFreqFromArray a (snd (Dataset_new c nm now)) = Some d ->
    loaded_once d
| once_get (d d' : Dataset) (g : getter) (m : arg) (v : float) :
    loaded_once d -> run g m d = Some (v, d') -> loaded_once d'.

(** The number of samples an estimator works on, the count [n] it reaches
    its test with, and the least number of samples for which [n > 3]. *)
Definition sample_count (e : estimator) (d : Dataset) : Z :=
  match e with
  | EHtotdev => alen (y d)
  | _ => alen (x d)
  end.

Definition count_of (e : estimator) (N m : Z) : Z :=
  match e with
  | EAdev => Z.max 0 (N - 2 * m)
  | EOadev => Z.max 0 ((N - 2 * m + m - 1) `div` m)
  | EMdev => 1 + Z.max 0 (N - 3 * m)
  | EHdev => Z.max 0 (N - 3 * m)
  | EOhdev => Z.max 0 ((N - 3 * m + m - 1) `div` m)
  | ETotdev => if (2 <=? N) && (m <=? N - 1) then N - 2 else 0
  | EMtotdev | EHtotdev => Z.max 0 (N - 3 * m + 1)
  end.

Definition min_samples (e : estimator) (m : Z) : Z :=
  match e with
  | EAdev => 2 * m + 4
  | EOadev => 5 * m + 1
  | EMdev => 3 * m + 3
  | EHdev => 3 * m + 4
  | EOhdev => 6 * m + 1
  | ETotdev => Z.max 6 (m + 1)
  | EMtotdev | EHtotdev => 3 * m + 3
  end.

(** The getters whose loop advances by [m], on a dataset where that loop is
    entered. *)
Definition steps_by_m (g : getter) (d : Dataset) : bool :=
  match g with
  | GOadev | GOhdev => true
  | GPhaseAvg | GPhaseMax | GPhaseMin => 0 <? alen (x d)
  | GFreqAvg | GFreqMax | GFreqMin | GStdev => 0 <? alen (y d)
  | _ => false
  end.


(** Whether a text has a carriage return followed by a line feed. *)
Fixpoint has_crlf (s : string) : bool :=
  match s with
  | EmptyString => false
  | String c rest =>
      match rest with
      | String c' _ => (Ascii.eqb c CR && Ascii.eqb c' LF) || has_crlf rest
      | EmptyString => false
      end
  end.

(** Whenever [values.ttotdev[k]] is set, [values.mtotdev[k]] is, and the
    former was computed from the latter. *)
Definition ttotdev_from_mtotdev (d : Dataset) : Prop :=
  forall k t,
    values d !! (ttotdev, k) = Some t ->
    exists v, values d !! (mtotdev, k) = Some v
              /\ t = (v * num k / sqrt3)%float.

(** The extremum a getter keeps: [v] if it beats [cur]. *)
Definition keep (better : float -> float -> bool) (cur v : float) : float :=
  if better v cur then v else cur.

(** The longest prefix of [a] made of whole blocks of [m] samples, and the
    dataset whose array [s] is cut to it. *)
Definition whole (a : list float) (m : Z) : list float :=
  take (Z.to_nat (alen a - alen a `mod` m)) a.

Definition cut (s : series) (m : Z) (d : Dataset) : Dataset :=
  match s with
  | Phase => {| id := id d; name := name d; x := whole (x d) m; y := y d;
                values := values d |}
  | Freq => {| id := id d; name := name d; x := x d; y := whole (y d) m;
               values := values d |}
  end.

(** The numbers among the lines of a text: what [parseFloat] makes of each
    line, in order, the NaN left out. *)
Definition numbers_of (parseFloat : string -> float) (a : list string)
    : list float :=
  List.filter (fun n => negb (is_nan n)) (parseFloat <$> a).

(** The loaders and the plots of a series. *)
Definition from_array (s : series) : list float -> Dataset -> option Dataset :=
  match s with Phase => loadPhaseFromArray | Freq => loadFreqFromArray end.

Definition from_url (s : series) (parseFloat : string -> float)
    : string -> Dataset -> option Dataset :=
  match s with
  | Phase => loadPhaseFromURL parseFloat
  | Freq => loadFreqFromURL parseFloat
  end.

Definition plot_of (s : series) : arg -> Dataset -> option flot :=
  match s with Phase => getPhasePlot | Freq => getFreqPlot end.

Definition axis (s : series) : string :=
  match s with Phase => "x" | Freq => "y" end.



(** ** Sample data *)

Definition blank : Dataset := snd (Dataset_new 0 None "now").

(** The phase samples [0, 1, 4, 9, 16, 25, 36, 49]. *)
Definition squares : list float := num <$> [0; 1; 4; 9; 16; 25; 36; 49].

(** The samples [0, 0, 0, 0, 0, 0, 0, 0]. *)
Definition flat : list float := num <$> [0; 0; 0; 0; 0; 0; 0; 0].

(** The phase samples [0, 1, 4, 9] and [0, 1, 2, 3, 4, 5]. *)
Definition short : list float := num <$> [0; 1; 4; 9].
Definition ramp : list float := num <$> [0; 1; 2; 3; 4; 5].

Definition with_phase (a : list float) : Dataset :=
  {| id := 1; name := "now"; x := a;
     y := default [] (phaseToFreq a omitted); values := ∅ |}.

(** The dataset loaded with [squares], after [getAdev(1)]. *)
Definition queried : Dataset :=
  store adev 1 (sqrt 2)%float (with_phase squares).

(** The dataset loaded with [squares], after [getMtotdev(0)]. *)
Definition polluted : Dataset := store mtotdev 1 nan (with_phase squares).

(** A text of three lines that end in a line feed alone. *)
Definition unix_text : string :=
  String.append "1" (String LF (String.append "2" (String LF "3"))).

(** A [parseFloat] for the examples: 1 on a text that begins with a digit
    1, else NaN. *)
Definition parse_one (s : string) : float :=
  match s with
  | String c _ => if Ascii.eqb c (Ascii.ascii_of_nat 49) then num 1 else nan
  | EmptyString => nan
  end.

(** * Properties *)

(** ** Loops *)

Lemma steps_nil (i0 bound step : Z) :
  1 <= step -> bound <= i0 -> steps i0 bound step = [].
Proof.
  intros Hs Hb. unfold steps.
  assert ((bound - i0 - 1) `div` step < 0) by (apply Z.div_lt_upper_bound; lia).
  rewrite seqZ_nil; [reflexivity | lia].
Qed.

Lemma steps_cons (i0 bound step : Z) :
  1 <= step -> i0 < bound ->
  steps i0 bound step = i0 :: steps (i0 + step) bound step.
Proof.
  intros Hs Hb. unfold steps.
  replace (bound - i0 - 1) with ((bound - (i0 + step) - 1) + 1 * step) by lia.
  rewrite Z.div_add by lia.
  set (c := (bound - (i0 + step) - 1) `div` step).
  assert (-1 <= c).
  { unfold c. apply Z.div_le_lower_bound; lia. }
  rewrite (seqZ_cons 0) by lia. simpl. f_equal; [lia |].
  replace (Z.succ 0) with (1 + 0) by lia.
  rewrite <- fmap_add_seqZ, <- list_fmap_compose.
  replace (Z.pred (c + 1 + 1)) with (c + 1) by lia.
  apply list_fmap_ext. intros _ k _. simpl. lia.
Qed.

Lemma steps_one (i0 bound : Z) : steps i0 bound 1 = seqZ i0 (bound - i0).
Proof.
  unfold steps. rewrite Z.div_1_r.
  replace (bound - i0 - 1 + 1) with (bound - i0) by lia.
  replace i0 with (i0 + 0) at 2 by lia.
  rewrite <- fmap_add_seqZ. apply list_fmap_ext. intros _ k _. lia.
Qed.

Lemma steps_block_starts (len m : Z) :
  1 <= m -> steps 0 len m = block_starts len m.
Proof.
  intros Hm. unfold steps, block_starts.
  replace (len + m - 1) with (len - 0 - 1 + 1 * m) by lia.
  rewrite Z.div_add by lia. apply list_fmap_ext. intros _ k _. lia.
Qed.

Section Loops.

Context {St : Type}.

(** A loop with a positive step is the fold of its body over the indices it
    visits: the fuel of [for_lt] is never what stops it. *)
Lemma for_loop_steps (body : Z -> St -> option St) (bound step : Z)
    (fuel : nat) :
  1 <= step ->
  forall (i : Z) (s : St),
    (Z.to_nat (bound - i) <= fuel)%nat ->
    for_loop fuel (fun i => i <? bound) step body i s
    = match foldM body (steps i bound step) s with
      | Some s' =>
          Some (i + step * Z.max 0 ((bound - i - 1) `div` step + 1), s')
      | None => None
      end.
Proof.
  intros Hs. induction fuel as [|fuel IH]; intros i s Hf.
  - assert (bound <= i) by lia.
    simpl. destruct (Z.ltb_spec i bound); [lia |].
    rewrite steps_nil by lia. simpl.
    assert ((bound - i - 1) `div` step < 0)
      by (apply Z.div_lt_upper_bound; lia).
    do 2 f_equal. lia.
  - simpl. destruct (Z.ltb_spec i bound) as [Hlt | Hge].
    + rewrite steps_cons by lia. simpl.
      destruct (body i s) as [s' |]; [| reflexivity].
      rewrite IH by lia.
      destruct (foldM body (steps (i + step) bound step) s');
        [| reflexivity].
      do 2 f_equal.
      replace (bound - i - 1) with ((bound - (i + step) - 1) + 1 * step)
        by lia.
      rewrite Z.div_add by lia.
      assert (-1 <= (bound - (i + step) - 1) `div` step)
        by (apply Z.div_le_lower_bound; lia).
      rewrite !Z.max_r by lia. ring.
    + rewrite steps_nil by lia. simpl.
      assert ((bound - i - 1) `div` step < 0)
        by (apply Z.div_lt_upper_bound; lia).
      do 2 f_equal. lia.
Qed.

Lemma for_lt_steps (body : Z -> St -> option St)
    (bound step i0 : Z) (s : St) :
  1 <= step ->
  for_lt bound step body i0 s
  = match foldM body (steps i0 bound step) s with
    | Some s' =>
        Some (i0 + step * Z.max 0 ((bound - i0 - 1) `div` step + 1), s')
    | None => None
    end.
Proof. intros Hs. unfold for_lt. apply for_loop_steps; [assumption | lia]. Qed.

Lemma for_lt_one (body : Z -> St -> option St)
    (bound i0 : Z) (s : St) :
  for_lt bound 1 body i0 s
  = match foldM body (seqZ i0 (bound - i0)) s with
    | Some s' => Some (Z.max i0 bound, s')
    | None => None
    end.
Proof.
  rewrite for_lt_steps by lia. rewrite steps_one, Z.div_1_r.
  destruct (foldM _ _ _); [| reflexivity]. do 2 f_equal. lia.
Qed.

Lemma for_loop_total (body : Z -> St -> option St)
    (cond : Z -> bool) (bound step : Z) (fuel : nat) :
  1 <= step ->
  (forall j, cond j = true -> j < bound) ->
  (forall j s, is_Some (body j s)) ->
  forall (i : Z) (s : St),
    (Z.to_nat (bound - i) <= fuel)%nat ->
    is_Some (for_loop fuel cond step body i s).
Proof.
  intros Hs Hc Hb. induction fuel as [|fuel IH]; intros i s Hf; simpl.
  - destruct (cond i) eqn:E; [apply Hc in E; lia | eauto].
  - destruct (cond i) eqn:E; [| eauto].
    destruct (Hb i s) as [s' ->]. apply IH. apply Hc in E. lia.
Qed.

Lemma for_lt_total (body : Z -> St -> option St)
    (bound step i0 : Z) (s : St) :
  1 <= step ->
  (forall j s, is_Some (body j s)) ->
  is_Some (for_lt bound step body i0 s).
Proof.
  intros Hs Hb. unfold for_lt.
  apply for_loop_total with (bound := bound); auto.
  intros j Hj. now apply Z.ltb_lt.
Qed.

Lemma foldM_pure (f : Z -> St -> St) (l : list Z) (s : St) :
  foldM (fun i s => Some (f i s)) l s = Some (fold_left (fun s i => f i s) l s).
Proof. revert s. induction l as [|i l IH]; intros s; simpl; auto. Qed.

Lemma foldM_app (body : Z -> St -> option St) (l1 l2 : list Z)
    (s : St) :
  foldM body (l1 ++ l2) s
  = match foldM body l1 s with
    | Some s' => foldM body l2 s'
    | None => None
    end.
Proof.
  revert s. induction l1 as [|i l1 IH]; intros s; simpl; [reflexivity |].
  destruct (body i s); auto.
Qed.

Lemma foldM_ext (f g : Z -> St -> option St) (l : list Z)
    (s : St) :
  (forall i s, f i s = g i s) -> foldM f l s = foldM g l s.
Proof.
  intros E. revert s. induction l as [|i l IH]; intros s; simpl; auto.
  rewrite E. destruct (g i s); auto.
Qed.

End Loops.

Lemma alen_fmap {A B : Type} (f : A -> B) (l : list A) :
  alen (f <$> l) = alen l.
Proof. unfold alen. now rewrite length_fmap. Qed.

Lemma alen_seqZ (a n : Z) : alen (seqZ a n) = Z.max 0 n.
Proof. unfold alen. rewrite length_seqZ. lia. Qed.

Lemma alen_app {A : Type} (l1 l2 : list A) :
  alen (l1 ++ l2) = alen l1 + alen l2.
Proof. unfold alen. rewrite length_app. lia. Qed.

Lemma alen_nonneg {A : Type} (l : list A) : 0 <= alen l.
Proof. unfold alen. lia. Qed.

(** The accumulation of squares, as a sum and a count. *)
Lemma fold_squares (diff : Z -> float) (l : list Z) (sum : float) (n : Z) :
  foldM (fun i '(sum, n) => let v := diff i in Some ((sum + v * v)%float, n + 1))
        l (sum, n)
  = Some (fold_left PrimFloat.add
            ((fun i => (diff i * diff i)%float) <$> l) sum,
          n + alen l).
Proof.
  revert sum n. induction l as [|i l IH]; intros sum n; simpl.
  - unfold alen. simpl. do 2 f_equal. lia.
  - rewrite IH. do 2 f_equal. unfold alen. simpl length. lia.
Qed.

Lemma sq_loop_steps (diff : Z -> float) (bound step : Z) :
  1 <= step ->
  sq_loop diff bound step
  = Some (step * Z.max 0 ((bound - 0 - 1) `div` step + 1),
          (fsum ((fun i => (diff i * diff i)%float) <$> steps 0 bound step),
           alen (steps 0 bound step))).
Proof.
  intros Hs. unfold sq_loop. rewrite for_lt_steps by assumption.
  rewrite fold_squares. reflexivity.
Qed.

(** ** The memoization pattern *)

Lemma store_id (s : stat) (m : Z) (v : float) (d : Dataset) :
  values d !! (s, m) = Some v -> store s m v d = d.
Proof.
  intros H. destruct d as [i nm xs ys vs]. unfold store. simpl in *.
  f_equal. now apply insert_id.
Qed.

(** A getter whose computation [compute] yields [v] and leaves the dataset
    alone returns [v] and stores it, provided the entry is absent or already
    holds [v]. *)
Lemma memo_pure (s : stat) (m : Z) (v : float)
    (compute : Dataset -> option (float * Dataset)) (d : Dataset) :
  compute d = Some (v, d) ->
  (forall w, values d !! (s, m) = Some w -> w = v) ->
  memo s m compute d = Some (v, store s m v d).
Proof.
  intros Hc Hw. unfold memo. destruct (values d !! (s, m)) as [w|] eqn:E.
  - rewrite (Hw w eq_refl) in *. now rewrite store_id.
  - now rewrite Hc.
Qed.

Lemma or1_given (m : Z) : m <> 0 -> or1 (given m) = m.
Proof. destruct m; simpl; congruence. Qed.

Lemma or1_nonzero (m : arg) : or1 m <> 0.
Proof. destruct m as [|[| |]]; simpl; lia. Qed.

Lemma memo_miss (s : stat) (m : Z) (v : float)
    (compute : Dataset -> option (float * Dataset)) (d d' : Dataset) :
  values d !! (s, m) = None ->
  compute d = Some (v, d') ->
  memo s m compute d = Some (v, store s m v d').
Proof. intros Hn Hc. unfold memo. now rewrite Hn, Hc. Qed.

Lemma memo_hit (s : stat) (m : Z) (v : float)
    (compute : Dataset -> option (float * Dataset)) (d : Dataset) :
  values d !! (s, m) = Some v -> memo s m compute d = Some (v, d).
Proof. intros H. unfold memo. now rewrite H. Qed.

(** What a getter returns is what its entry holds afterwards. *)
Lemma memo_lookup (s : stat) (m : Z) (v : float)
    (compute : Dataset -> option (float * Dataset)) (d d' : Dataset) :
  memo s m compute d = Some (v, d') -> values d' !! (s, m) = Some v.
Proof.
  unfold memo. destruct (values d !! (s, m)) as [w|] eqn:E.
  - intros [= <- <-]. assumption.
  - destruct (compute d) as [[w d1]|]; [| discriminate].
    intros [= <- <-]. simpl. apply lookup_insert_eq.
Qed.

(** The test [n > MIN_SAMPLES] fails from [n = 3] down. *)
Lemma gate_closed (n : Z) (v : float) :
  n <= 3 -> (if n >? MIN_SAMPLES then v else zero) = zero.
Proof.
  intros H. unfold MIN_SAMPLES. rewrite Z.gtb_ltb.
  destruct (Z.ltb_spec 3 n); [lia | reflexivity].
Qed.

(** ** Termination of the loops *)

Ltac loop_total :=
  match goal with
  | |- context [for_lt ?b ?st ?body ?i ?s] =>
      let r := fresh "r" in
      let E := fresh "E" in
      let H := fresh "H" in
      assert (H : is_Some (for_lt b st body i s));
      [ apply for_lt_total; [lia | try (intros ? ?; solve [eauto])]
      | destruct H as [r E]; rewrite E; simpl ]
  end.

Lemma _arrayAvg_total (i m : Z) (a : list float) : is_Some (_arrayAvg i m a).
Proof. unfold _arrayAvg. loop_total. destruct r. eauto. Qed.

Lemma avg_loop_total (a : list float) (m : Z) :
  1 <= m -> is_Some (avg_loop a m).
Proof.
  intros Hm. unfold avg_loop. apply for_lt_total; [lia |].
  intros j s. destruct (_arrayAvg_total j m a) as [v ->]. simpl. eauto.
Qed.

Lemma ext_loop_total (better : float -> float -> bool) (init : float)
    (a : list float) (m : Z) :
  1 <= m -> is_Some (ext_loop better init a m).
Proof.
  intros Hm. unfold ext_loop. apply for_lt_total; [lia |].
  intros j s. destruct (_arrayAvg_total j m a) as [v ->]. simpl. eauto.
Qed.

Lemma sq_loop_total (diff : Z -> float) (bound step : Z) :
  1 <= step -> is_Some (sq_loop diff bound step).
Proof. intros Hs. rewrite sq_loop_steps by assumption. eauto. Qed.

Lemma mdev_loop_total (x : list float) (m : Z) : is_Some (mdev_loop x m).
Proof.
  unfold mdev_loop.
  assert (H : is_Some
                (for_loop (Z.to_nat m)
                   (fun i => (i <? alen x - 2 * m) && (i <? m)) 1
                   (fun i v => Some (v + diff2 x m i)%float) 0 zero)).
  { apply for_loop_total with (bound := m); [lia | | eauto | lia].
    intros j Hj. apply andb_true_iff in Hj as [_ Hj]. now apply Z.ltb_lt. }
  destruct H as [[i v] E]. rewrite E. simpl. loop_total.
  - intros j [[v' s'] n']. eauto.
  - destruct r as [i' [[v' s'] n']]. eauto.
Qed.

Lemma totdev_loop_total (x : list float) (m : Z) : is_Some (totdev_loop x m).
Proof.
  unfold totdev_loop, totdev_extend. loop_total.
  - intros j [nx e]. eauto.
  - destruct r as [i [nx e]].
    destruct (e + alen x + m - 1 <=? 3 * alen x - 4); [| eauto].
    loop_total.
    + intros j [s n]. eauto.
    + destruct r as [i' [s n]]. eauto.
Qed.

Lemma tot_window_total (a : list float) (half : option Z) (m n : Z) :
  is_Some (tot_window a half m n).
Proof.
  unfold tot_window, for_le.
  loop_total. destruct r as [i f].
  loop_total. destruct r as [i1 zx].
  loop_total. destruct r as [i2 nx].
  loop_total.
  - intros j s. loop_total.
    + intros k [[a1 a2] a3]. eauto.
    + destruct r as [k [[a1 a2] a3]]. eauto.
  - destruct r as [i3 sum]. eauto.
Qed.

Lemma tot_loop_total (a : list float) (half : option Z) (m : Z) :
  is_Some (tot_loop a half m).
Proof.
  unfold tot_loop. apply for_lt_total; [lia |].
  intros n d. destruct (tot_window_total a half m n) as [s ->]. simpl. eauto.
Qed.

(** ** Arrays and conversions *)

Lemma aset_push (a : list float) (v : float) : aset a (alen a) v = a ++ [v].
Proof.
  unfold aset. pose proof (alen_nonneg a).
  destruct (Z.ltb_spec (alen a) 0); [lia |].
  destruct (Z.ltb_spec (alen a) (alen a)); [lia |].
  now rewrite Z.sub_diag.
Qed.

Lemma rd_app_l (a b : list float) (i : Z) :
  i < alen a -> (a ++ b).[i] = a.[i].
Proof.
  intros H. unfold rd, aget, alen in *.
  destruct (Z.ltb_spec i 0); [reflexivity |].
  rewrite lookup_app_l by lia. reflexivity.
Qed.

Lemma rd_app_last (a : list float) (v : float) : (a ++ [v]).[alen a] = v.
Proof.
  unfold rd, aget, alen. destruct (Z.ltb_spec (Z.of_nat (length a)) 0); [lia |].
  rewrite Nat2Z.id, list_lookup_middle by reflexivity. reflexivity.
Qed.


(** A loop that writes [a[i] = f(i)] for [i = k, k+1, ...], [k] being the
    length of [a], appends the values one by one. *)
Lemma fold_push (f : Z -> float) (n : nat) (a : list float) :
  foldM (fun i y => Some (aset y i (f i))) (seqZ (alen a) (Z.of_nat n)) a
  = Some (a ++ (f <$> seqZ (alen a) (Z.of_nat n))).
Proof.
  revert a. induction n as [|n IH]; intros a.
  - simpl. now rewrite app_nil_r.
  - rewrite seqZ_cons by lia. simpl. rewrite aset_push.
    replace (Z.pred (Z.of_nat (S n))) with (Z.of_nat n) by lia.
    replace (Z.succ (alen a)) with (alen (a ++ [f (alen a)]))
      by (rewrite alen_app; unfold alen; simpl; lia).
    rewrite IH, <- app_assoc. reflexivity.
Qed.

Lemma phaseToFreq_spec (a : list float) (m : arg) :
  phaseToFreq a m
  = Some ((fun i => ((a.[i + 1] - a.[i]) / num (or1 m))%float)
            <$> seqZ 0 (alen a - 1)).
Proof.
  unfold phaseToFreq. rewrite for_lt_one, Z.sub_0_r.
  destruct (Z.le_gt_cases (alen a - 1) 0) as [Hle | Hgt].
  - rewrite seqZ_nil by lia. reflexivity.
  - rewrite <- (Z2Nat.id (alen a - 1)) by lia.
    rewrite (fold_push _ _ []). reflexivity.
Qed.

(** The array [freqToPhase] builds: it starts at [0], and each element is
    the one before it plus the frequency sample times [m]. *)
Lemma freqToPhase_build (b : list float) (m : Z) (n : nat) :
  exists r,
    foldM (fun i x => Some (aset x i (x.[i - 1] + b.[i - 1] * num m)%float))
          (seqZ 1 (Z.of_nat n)) [zero]
    = Some r
    /\ alen r = Z.of_nat n + 1
    /\ r.[0] = zero
    /\ forall i, 0 <= i < Z.of_nat n ->
                 r.[i + 1] = (r.[i] + b.[i] * num m)%float.
Proof.
  induction n as [|n (r & Hr & Hlen & H0 & Hstep)].
  - exists [zero]. repeat split. intros i Hi. lia.
  - replace (Z.of_nat (S n)) with (Z.of_nat n + 1) by lia.
    rewrite seqZ_app by lia. rewrite foldM_app, Hr.
    rewrite (seqZ_cons (1 + Z.of_nat n)) by lia. simpl.
    replace (1 + Z.of_nat n) with (alen r) by lia.
    rewrite aset_push. eexists. split; [reflexivity |].
    split; [rewrite alen_app; unfold alen at 2; simpl; lia |].
    split; [rewrite rd_app_l by lia; assumption |].
    intros i Hi. destruct (Z.eq_dec i (Z.of_nat n)) as [-> | Hne].
    + replace (Z.of_nat n + 1) with (alen r) by lia.
      rewrite rd_app_last, rd_app_l by lia.
      do 3 f_equal; lia.
    + rewrite !rd_app_l by lia. apply Hstep. lia.
Qed.

Lemma freqToPhase_spec (b : list float) (m : arg) :
  exists r,
    freqToPhase b m = Some r
    /\ alen r = alen b + 1
    /\ r.[0] = zero
    /\ forall i, 0 <= i < alen b ->
                 r.[i + 1] = (r.[i] + b.[i] * num (or1 m))%float.
Proof.
  destruct (freqToPhase_build b (or1 m) (length b))
    as (r & Hr & Hlen & H0 & Hstep).
  exists r. unfold freqToPhase, for_le. rewrite for_lt_one.
  replace (alen b + 1 - 1) with (Z.of_nat (length b)) by (unfold alen; lia).
  rewrite Hr. simpl. repeat split; assumption.
Qed.

Lemma phaseToFreq_total (a : list float) (m : arg) :
  is_Some (phaseToFreq a m).
Proof. unfold phaseToFreq. loop_total. destruct r. eauto. Qed.

Lemma freqToPhase_total (a : list float) (m : arg) :
  is_Some (freqToPhase a m).
Proof. unfold freqToPhase, for_le. loop_total. destruct r. eauto. Qed.

Lemma with_phase_loaded (a : list float) :
  loadPhaseFromArray a blank = Some (with_phase a).
Proof.
  unfold loadPhaseFromArray, with_phase. rewrite phaseToFreq_spec.
  reflexivity.
Qed.

Lemma with_phase_reachable (a : list float) : reachable (with_phase a).
Proof.
  apply (reach_step blank _ (LoadPhase a)).
  - apply (reach_new 0 None "now").
  - apply with_phase_loaded.
Qed.

(** ** What a getter changes *)

Lemma extends_refl (ks : list (stat * Z)) (d : Dataset) : extends ks d d.
Proof. unfold extends. auto 10. Qed.

Lemma extends_weaken (ks ks' : list (stat * Z)) (d d' : Dataset) :
  ks ⊆ ks' -> extends ks d d' -> extends ks' d d'.
Proof.
  intros Hsub (Hi & Hn & Hx & Hy & Hout & Hmono).
  repeat split; auto.
Qed.

Lemma memo_extends (s : stat) (m : Z) (ks : list (stat * Z))
    (compute : Dataset -> option (float * Dataset)) (d d' : Dataset)
    (v : float) :
  (forall w d1, compute d = Some (w, d1) -> extends ks d d1) ->
  memo s m compute d = Some (v, d') ->
  extends ((s, m) :: ks) d d'.
Proof.
  intros Hc. unfold memo. destruct (values d !! (s, m)) as [w|] eqn:E.
  - intros [= <- <-]. apply extends_refl.
  - destruct (compute d) as [[w d1]|] eqn:Ec; [| discriminate].
    intros [= <- <-].
    destruct (Hc w d1 eq_refl) as (Hi & Hn & Hx & Hy & Hout & Hmono).
    unfold store. repeat split; simpl; auto.
    + intros k Hk. rewrite lookup_insert_ne.
      * apply Hout. intros Hin. apply Hk. now right.
      * intros <-. apply Hk. now left.
    + intros k u Hu. rewrite lookup_insert_ne; [now apply Hmono |].
      intros <-. congruence.
Qed.

Lemma memo_total (s : stat) (m : Z)
    (compute : Dataset -> option (float * Dataset)) (d : Dataset) :
  is_Some (compute d) -> is_Some (memo s m compute d).
Proof.
  intros [[v d1] E]. unfold memo.
  destruct (values d !! (s, m)); [eauto |]. rewrite E. eauto.
Qed.

(** A computation that only reads the dataset hands it back as it was. *)
Ltac reads_only :=
  let Hc := fresh "Hc" in
  intros ? ? Hc; simpl in Hc;
  repeat match type of Hc with
         | context [mbind _ ?o] => destruct o; simpl in Hc
         | context [match ?o with _ => _ end] => destruct o; simpl in Hc
         end;
  try discriminate; injection Hc as <- <-; apply extends_refl.

Lemma getFreqAvg_frame (m : arg) (d d' : Dataset) (v : float) :
  getFreqAvg m d = Some (v, d') -> extends [(yavg, or1 m)] d d'.
Proof. unfold getFreqAvg. apply memo_extends. reads_only. Qed.

Lemma getMdev_frame (m : arg) (d d' : Dataset) (v : float) :
  getMdev m d = Some (v, d') -> extends [(mdev, or1 m)] d d'.
Proof. unfold getMdev. apply memo_extends. reads_only. Qed.

Lemma getMtotdev_frame (m : arg) (d d' : Dataset) (v : float) :
  getMtotdev m d = Some (v, d') -> extends [(mtotdev, or1 m)] d d'.
Proof. unfold getMtotdev. apply memo_extends. reads_only. Qed.

Lemma getFreqAvg_total (m : arg) (d : Dataset) :
  1 <= or1 m -> is_Some (getFreqAvg m d).
Proof.
  intros Hm. unfold getFreqAvg. apply memo_total.
  destruct (avg_loop_total (y d) (or1 m) Hm) as [[i s] ->]. simpl. eauto.
Qed.

Lemma getMdev_total (m : arg) (d : Dataset) : is_Some (getMdev m d).
Proof.
  unfold getMdev. apply memo_total.
  destruct (mdev_loop_total (x d) (or1 m)) as [[s n] ->]. simpl. eauto.
Qed.

Lemma getMtotdev_total (m : arg) (d : Dataset) : is_Some (getMtotdev m d).
Proof.
  unfold getMtotdev. apply memo_total.
  destruct (tot_loop_total (x d) (half_of m) (or1 m)) as [[n s] ->].
  simpl. eauto.
Qed.

Lemma run_frame (g : getter) (m : arg) (d d' : Dataset) (v : float) :
  run g m d = Some (v, d') ->
  extends ((fun s => (s, or1 m)) <$> writes g) d d'.
Proof.
  pose proof (or1_nonzero m) as Hnz.
  destruct g; simpl;
    unfold getPhaseAvg, getPhaseMax, getPhaseMin, getFreqAvg, getFreqMax,
      getFreqMin, getStdev, getAdev, getOadev, getMdev, getTdev, getHdev,
      getOhdev, getTotdev, getMtotdev, getTtotdev, getHtotdev;
    apply memo_extends; try reads_only.
  - (* getStdev *)
    intros w d1 Hc. simpl in Hc.
    destruct (getFreqAvg (given (or1 m)) d) as [[a d2]|] eqn:E;
      [| discriminate].
    apply getFreqAvg_frame in E. rewrite or1_given in E by assumption.
    simpl in Hc.
    destruct (for_lt _ _ _ _ _) as [[i s]|]; [| discriminate].
    injection Hc as <- <-. assumption.
  - (* getTdev *)
    intros w d1 Hc. simpl in Hc.
    destruct (getMdev (given (or1 m)) d) as [[a d2]|] eqn:E;
      [| discriminate].
    apply getMdev_frame in E. rewrite or1_given in E by assumption.
    injection Hc as <- <-. assumption.
  - (* getTtotdev *)
    intros w d1 Hc. simpl in Hc.
    destruct (getMtotdev (given (or1 m)) d) as [[a d2]|] eqn:E;
      [| discriminate].
    apply getMtotdev_frame in E. rewrite or1_given in E by assumption.
    injection Hc as <- <-. assumption.
Qed.

Lemma run_returns_entry (g : getter) (m : arg) (d d' : Dataset) (v : float) :
  run g m d = Some (v, d') -> values d' !! (own g, or1 m) = Some v.
Proof. destruct g; simpl; apply memo_lookup. Qed.

Lemma run_total (g : getter) (m : arg) (d : Dataset) :
  1 <= or1 m -> is_Some (run g m d).
Proof.
  intros Hm. pose proof (or1_nonzero m) as Hnz.
  destruct g; simpl; apply memo_total.
  - destruct (avg_loop_total (x d) (or1 m) Hm) as [[i s] ->]. simpl. eauto.
  - destruct (ext_loop_total gt neg_infinity (x d) (or1 m) Hm) as [[i s] ->].
    simpl. eauto.
  - destruct (ext_loop_total PrimFloat.ltb infinity (x d) (or1 m) Hm)
      as [[i s] ->]. simpl. eauto.
  - destruct (avg_loop_total (y d) (or1 m) Hm) as [[i s] ->]. simpl. eauto.
  - destruct (ext_loop_total gt neg_infinity (y d) (or1 m) Hm) as [[i s] ->].
    simpl. eauto.
  - destruct (ext_loop_total PrimFloat.ltb infinity (y d) (or1 m) Hm)
      as [[i s] ->]. simpl. eauto.
  - destruct (getFreqAvg_total (given (or1 m)) d) as [[a d1] ->].
    { now rewrite or1_given. }
    simpl. loop_total.
    + intros j s. unfold _freqAvg.
      destruct (_arrayAvg_total j (or1 m) (y d1)) as [b ->]. simpl. eauto.
    + destruct r. eauto.
  - unfold adev_loop.
    destruct (sq_loop_total (diff2 (x d) (or1 m)) (alen (x d) - 2 * or1 m) 1)
      as [[i [s n]] ->]; [lia |]. simpl. eauto.
  - unfold oadev_loop.
    destruct (sq_loop_total (diff2 (x d) (or1 m)) (alen (x d) - 2 * or1 m)
                (or1 m)) as [[i [s n]] ->]; [lia |]. simpl. eauto.
  - destruct (mdev_loop_total (x d) (or1 m)) as [[s n] ->]. simpl. eauto.
  - destruct (getMdev_total (given (or1 m)) d) as [[a d1] ->]. simpl. eauto.
  - unfold hdev_loop.
    destruct (sq_loop_total (diff3 (x d) (or1 m)) (alen (x d) - 3 * or1 m) 1)
      as [[i [s n]] ->]; [lia |]. simpl. eauto.
  - unfold ohdev_loop.
    destruct (sq_loop_total (diff3 (x d) (or1 m)) (alen (x d) - 3 * or1 m)
                (or1 m)) as [[i [s n]] ->]; [lia |]. simpl. eauto.
  - destruct (totdev_loop_total (x d) (or1 m)) as [[s n] ->]. simpl. eauto.
  - destruct (tot_loop_total (x d) (half_of m) (or1 m)) as [[n s] ->].
    simpl. eauto.
  - destruct (getMtotdev_total (given (or1 m)) d) as [[a d1] ->].
    simpl. eauto.
  - destruct (tot_loop_total (y d) (half_of m) (or1 m)) as [[n s] ->].
    simpl. eauto.
Qed.

Lemma run_hit (g : getter) (m : arg) (d : Dataset) (v : float) :
  values d !! (own g, or1 m) = Some v -> run g m d = Some (v, d).
Proof. intros H. destruct g; simpl in *; now apply memo_hit. Qed.

Lemma load_values (o : op) (d d' : Dataset) :
  match o with Get _ _ => False | _ => True end ->
  exec o d = Some d' -> values d' = values d.
Proof.
  destruct o as [a | a | g m]; simpl; intros Ho H; [| | contradiction].
  - unfold loadPhaseFromArray in H.
    destruct (phaseToFreq a omitted); simpl in H; [| discriminate].
    now injection H as <-.
  - unfold loadFreqFromArray in H.
    destruct (freqToPhase a omitted); simpl in H; [| discriminate].
    now injection H as <-.
Qed.

(** ** Memoization on a dataset loaded once *)

Lemma clear_extends (ks : list (stat * Z)) (d d' : Dataset) :
  extends ks d d' -> clear d' = clear d.
Proof.
  intros (Hi & Hn & Hx & Hy & _). unfold clear. now rewrite Hi, Hn, Hx, Hy.
Qed.

Lemma memo_clear (s : stat) (k : Z)
    (compute : Dataset -> option (float * Dataset)) (d d' : Dataset)
    (v : float) :
  (forall w, values d !! (s, k) = Some w ->
             fst <$> memo s k compute (clear d) = Some w) ->
  (forall w d1, compute d = Some (w, d1) ->
                fst <$> compute (clear d) = Some w) ->
  memo s k compute d = Some (v, d') ->
  fst <$> memo s k compute (clear d) = Some v.
Proof.
  intros Hhit Hmiss. unfold memo at 1.
  destruct (values d !! (s, k)) as [w|] eqn:E.
  - intros [= <- <-]. now apply Hhit.
  - destruct (compute d) as [[w d1]|] eqn:Ec; [| discriminate].
    intros [= <- <-]. specialize (Hmiss _ _ eq_refl).
    unfold memo. simpl. rewrite lookup_empty.
    destruct (compute (clear d)) as [[w' dc]|]; simpl in *; congruence.
Qed.

(** A computation that only reads the sample arrays gives the same number
    with the memoization table emptied. *)
Ltac same_value :=
  let Hc := fresh "Hc" in
  intros ? ? Hc; simpl in Hc |- *;
  repeat match type of Hc with
         | context [mbind _ ?o] => destruct o; simpl in Hc |- *
         | context [match ?o with _ => _ end] => destruct o; simpl in Hc |- *
         end;
  try discriminate; injection Hc as <- <-; reflexivity.

Ltac unfold_getters :=
  unfold getPhaseAvg, getPhaseMax, getPhaseMin, getFreqAvg, getFreqMax,
    getFreqMin, getStdev, getAdev, getOadev, getMdev, getTdev, getHdev,
    getOhdev, getTotdev, getMtotdev, getTtotdev, getHtotdev in *.

Lemma computes_fresh_direct (g : getter) (m : arg) (d d' : Dataset)
    (v : float) :
  settled d -> coerces g = true -> calls_none g = true ->
  run g m d = Some (v, d') -> computed g (or1 m) d = Some v.
Proof.
  intros Hs Hc Hn H. pose proof (or1_nonzero m) as Hnz.
  assert (Hhit : forall w, values d !! (own g, or1 m) = Some w ->
                           computed g (or1 m) d = Some w)
    by (intros w Hw; now apply Hs).
  unfold computed in *.
  destruct g; try discriminate Hc; try discriminate Hn;
    cbn [run own] in *; unfold_getters;
    rewrite or1_given in * by assumption;
    (refine (memo_clear _ _ _ d d' v _ _ H); [exact Hhit | same_value]).
Qed.

Lemma computed_inv (g : getter) (k : Z) (d : Dataset) (v : float) :
  computed g k d = Some v ->
  exists dc, run g (given k) (clear d) = Some (v, dc)
             /\ x dc = x d /\ y dc = y d.
Proof.
  unfold computed. destruct (run g (given k) (clear d)) as [[w dc]|] eqn:E;
    [| discriminate].
  intros [= <-]. exists dc. split; [reflexivity |].
  apply run_frame in E. destruct E as (_ & _ & Hx & Hy & _). auto.
Qed.

Lemma computes_fresh (g : getter) (m : arg) (d d' : Dataset) (v : float) :
  settled d -> coerces g = true ->
  run g m d = Some (v, d') -> computed g (or1 m) d = Some v.
Proof.
  intros Hs Hc H. pose proof (or1_nonzero m) as Hnz.
  destruct (calls_none g) eqn:Hn;
    [now apply (computes_fresh_direct g m d d') |].
  assert (Hhit : forall w, values d !! (own g, or1 m) = Some w ->
                           computed g (or1 m) d = Some w)
    by (intros w Hw; now apply Hs).
  unfold computed in *.
  destruct g; try discriminate Hc; try discriminate Hn;
    cbn [run own] in *; unfold_getters;
    rewrite or1_given in * by assumption;
    (refine (memo_clear _ _ _ d d' v _ _ H); [exact Hhit |]);
    intros w d1 Hw; simpl in Hw.
  - (* getStdev *)
    destruct (getFreqAvg (given (or1 m)) d) as [[a d2]|] eqn:E;
      [| discriminate].
    pose proof (getFreqAvg_frame _ _ _ _ E) as (_ & _ & _ & Hy & _).
    apply (computes_fresh_direct GFreqAvg) in E; try assumption;
      try reflexivity.
    rewrite or1_given in E by assumption.
    apply computed_inv in E as (dc & E & _ & Hyc). cbn [run] in E.
    simpl. rewrite E. simpl in Hw |- *. unfold _freqAvg in *.
    rewrite Hyc. rewrite Hy in Hw.
    destruct (for_lt _ _ _ _ _) as [[i s]|]; [| discriminate].
    simpl in *. now injection Hw as <- _.
  - (* getTdev *)
    destruct (getMdev (given (or1 m)) d) as [[a d2]|] eqn:E;
      [| discriminate].
    apply (computes_fresh_direct GMdev) in E; try assumption;
      try reflexivity.
    rewrite or1_given in E by assumption.
    apply computed_inv in E as (dc & E & _). cbn [run] in E.
    simpl. rewrite E. simpl in *. now injection Hw as <- _.
Qed.

Lemma own_inj (g g' : getter) : own g = own g' -> g = g'.
Proof. destruct g, g'; simpl; congruence. Qed.

Lemma written_keys (g : getter) (m : arg) (s : stat) (k : Z) :
  (s, k) ∈ (fun s => (s, or1 m)) <$> writes g <-> s ∈ writes g /\ k = or1 m.
Proof.
  rewrite list_elem_of_fmap. split.
  - intros (s' & [= -> ->] & Hs). auto.
  - intros (Hs & ->). eauto.
Qed.

Lemma own_in_writes_direct (g g0 : getter) :
  calls_none g = true -> own g0 ∈ writes g -> g0 = g.
Proof.
  intros Hn Hin. destruct g; try discriminate Hn; simpl in Hin;
    rewrite elem_of_cons, elem_of_nil in Hin; destruct Hin as [Hin | []];
    now apply own_inj.
Qed.

(** The entry a getter leaves for the getter it calls. *)
Lemma callee_entry (g g0 : getter) (m : arg) (d d' : Dataset) (v w : float) :
  settled d -> coerces g0 = true -> g0 <> g -> own g0 ∈ writes g ->
  run g m d = Some (v, d') ->
  values d !! (own g0, or1 m) = None ->
  values d' !! (own g0, or1 m) = Some w ->
  computed g0 (or1 m) d = Some w.
Proof.
  intros Hs Hc Hne Hin H Hnone Hsome. pose proof (or1_nonzero m) as Hnz.
  destruct (calls_none g) eqn:Hcn.
  { apply own_in_writes_direct in Hin; congruence. }
  destruct g; try discriminate Hcn; simpl in Hin;
    rewrite ?elem_of_cons, elem_of_nil in Hin;
    destruct Hin as [Hin | [Hin | []]].
  1: apply (own_inj g0 GStdev) in Hin; congruence.
  2: apply (own_inj g0 GTdev) in Hin; congruence.
  3: apply (own_inj g0 GTtotdev) in Hin; congruence.
  - (* getStdev and yavg *)
    apply (own_inj g0 GFreqAvg) in Hin as ->. cbn [run own] in *.
    unfold getStdev, memo in H.
    destruct (values d !! (stdev, or1 m)); [injection H as <- <-; congruence |].
    simpl in H.
    destruct (getFreqAvg (given (or1 m)) d) as [[a d2]|] eqn:E;
      simpl in H; [| discriminate].
    destruct (for_lt _ _ _ _ _) as [[i s]|]; simpl in H; [| discriminate].
    injection H as <- <-. simpl in Hsome.
    rewrite lookup_insert_ne in Hsome by congruence.
    pose proof E as Hl. unfold getFreqAvg in Hl. apply memo_lookup in Hl.
    rewrite or1_given in Hl by assumption. rewrite Hsome in Hl.
    injection Hl as ->.
    apply (computes_fresh_direct GFreqAvg) in E; try assumption;
      try reflexivity.
    now rewrite or1_given in E by assumption.
  - (* getTdev and mdev *)
    apply (own_inj g0 GMdev) in Hin as ->. cbn [run own] in *.
    unfold getTdev, memo in H.
    destruct (values d !! (tdev, or1 m)); [injection H as <- <-; congruence |].
    simpl in H.
    destruct (getMdev (given (or1 m)) d) as [[a d2]|] eqn:E;
      simpl in H; [| discriminate].
    injection H as <- <-. simpl in Hsome.
    rewrite lookup_insert_ne in Hsome by congruence.
    pose proof E as Hl. unfold getMdev in Hl. apply memo_lookup in Hl.
    rewrite or1_given in Hl by assumption. rewrite Hsome in Hl.
    injection Hl as ->.
    apply (computes_fresh_direct GMdev) in E; try assumption;
      try reflexivity.
    now rewrite or1_given in E by assumption.
  - (* getTtotdev and mtotdev *)
    apply (own_inj g0 GMtotdev) in Hin as ->. discriminate Hc.
Qed.

Lemma settled_step (g : getter) (m : arg) (d d' : Dataset) (v : float) :
  settled d -> run g m d = Some (v, d') -> settled d'.
Proof.
  intros Hs H g0 k w Hc Hk Hw.
  pose proof (run_frame _ _ _ _ _ H) as Hf.
  unfold computed. rewrite (clear_extends _ _ _ Hf). fold (computed g0 k d).
  destruct Hf as (_ & _ & _ & _ & Hout & Hmono).
  destruct (values d !! (own g0, k)) as [w0|] eqn:E0.
  { apply Hmono in E0 as E1. rewrite Hw in E1. injection E1 as ->.
    now apply Hs. }
  destruct (decide ((own g0, k) ∈ (fun s => (s, or1 m)) <$> writes g))
    as [Hin | Hnin]; [| rewrite Hout in Hw by assumption; congruence].
  apply written_keys in Hin as [Hin ->].
  destruct (decide (g0 = g)) as [-> | Hg].
  - pose proof (run_returns_entry _ _ _ _ _ H) as Hv. rewrite Hw in Hv.
    injection Hv as ->. eapply computes_fresh; eauto.
  - eapply callee_entry; eauto.
Qed.

Lemma tot_count (a : list float) (half : option Z) (k : Z) :
  exists s, tot_loop a half k = Some (Z.max 0 (alen a - 3 * k + 1), s).
Proof.
  pose proof (tot_loop_total a half k) as [r E].
  unfold tot_loop in *. rewrite for_lt_one in *.
  destruct (foldM _ _ _) as [s|]; [| discriminate].
  exists s. reflexivity.
Qed.

Lemma getMtotdev_gated (m : arg) (d d' : Dataset) (v : float) :
  values d !! (mtotdev, or1 m) = None ->
  getMtotdev m d = Some (v, d') ->
  alen (x d) - 3 * or1 m + 1 <= 3 -> v = zero.
Proof.
  intros Hn H Hle. unfold getMtotdev, memo in H. rewrite Hn in H.
  destruct (tot_count (x d) (half_of m) (or1 m)) as [s E].
  simpl in H. rewrite E in H. simpl in H.
  rewrite gate_closed in H by lia. now injection H as <- _.
Qed.

Lemma getHtotdev_gated (m : arg) (d d' : Dataset) (v : float) :
  values d !! (htotdev, or1 m) = None ->
  getHtotdev m d = Some (v, d') ->
  alen (y d) - 3 * or1 m + 1 <= 3 -> v = zero.
Proof.
  intros Hn H Hle. unfold getHtotdev, memo in H. rewrite Hn in H.
  destruct (tot_count (y d) (half_of m) (or1 m)) as [s E].
  simpl in H. rewrite E in H. simpl in H.
  rewrite gate_closed in H by lia. now injection H as <- _.
Qed.

Lemma tot_gated_step (g : getter) (m : arg) (d d' : Dataset) (v : float) :
  tot_gated d -> run g m d = Some (v, d') -> tot_gated d'.
Proof.
  intros Hg H k w Hk. pose proof (or1_nonzero m) as Hnz.
  pose proof (run_frame _ _ _ _ _ H) as (_ & _ & Hx & Hy & Hout & Hmono).
  rewrite Hx, Hy. split; intros Hw Hle.
  - destruct (values d !! (mtotdev, k)) as [w0|] eqn:E0.
    { apply Hmono in E0 as E1. rewrite Hw in E1. injection E1 as ->.
      now apply (proj1 (Hg k w0 Hk)). }
    destruct (decide ((mtotdev, k) ∈ (fun s => (s, or1 m)) <$> writes g))
      as [Hin | Hnin]; [| rewrite Hout in Hw by assumption; congruence].
    apply written_keys in Hin as [Hin ->].
    destruct g; simpl in Hin; rewrite ?elem_of_cons, elem_of_nil in Hin;
      try (intuition discriminate); cbn [run] in H.
    + pose proof (memo_lookup _ _ _ _ _ _ H) as Hv. rewrite Hw in Hv.
      injection Hv as ->. eapply getMtotdev_gated; eauto.
    + unfold getTtotdev, memo in H.
      destruct (values d !! (ttotdev, or1 m));
        [injection H as <- <-; congruence |].
      simpl in H.
      destruct (getMtotdev (given (or1 m)) d) as [[a d2]|] eqn:E;
        simpl in H; [| discriminate].
      injection H as <- <-. simpl in Hw.
      rewrite lookup_insert_ne in Hw by congruence.
      pose proof E as Hl. unfold getMtotdev in Hl. apply memo_lookup in Hl.
      rewrite or1_given in Hl by assumption. rewrite Hw in Hl.
      injection Hl as ->.
      eapply (getMtotdev_gated (given (or1 m))); eauto;
        now rewrite or1_given by assumption.
  - destruct (values d !! (htotdev, k)) as [w0|] eqn:E0.
    { apply Hmono in E0 as E1. rewrite Hw in E1. injection E1 as ->.
      now apply (proj2 (Hg k w0 Hk)). }
    destruct (decide ((htotdev, k) ∈ (fun s => (s, or1 m)) <$> writes g))
      as [Hin | Hnin]; [| rewrite Hout in Hw by assumption; congruence].
    apply written_keys in Hin as [Hin ->].
    destruct g; simpl in Hin; rewrite ?elem_of_cons, elem_of_nil in Hin;
      try (intuition discriminate); cbn [run] in H.
    pose proof (memo_lookup _ _ _ _ _ _ H) as Hv. rewrite Hw in Hv.
    injection Hv as ->. eapply getHtotdev_gated; eauto.
Qed.

Lemma loaded_once_inv (d : Dataset) :
  loaded_once d -> settled d /\ tot_gated d.
Proof.
  induction 1 as [c nm now a d H | c nm now a d H | d d' g m v _ [IHs IHg] H].
  - apply (load_values (LoadPhase a)) in H; [| exact I]. simpl in H.
    split.
    + intros g k w _ _ Hw. rewrite H, lookup_empty in Hw. discriminate.
    + intros k w _. rewrite H, !lookup_empty. split; discriminate.
  - apply (load_values (LoadFreq a)) in H; [| exact I]. simpl in H.
    split.
    + intros g k w _ _ Hw. rewrite H, lookup_empty in Hw. discriminate.
    + intros k w _. rewrite H, !lookup_empty. split; discriminate.
  - split; [eapply settled_step | eapply tot_gated_step]; eauto.
Qed.

(** On a dataset loaded once, a memoized entry is what the getter computes
    now. *)
Lemma loaded_once_entry (g : getter) (k : Z) (d : Dataset) (w : float) :
  loaded_once d -> coerces g = true -> k <> 0 ->
  values d !! (own g, k) = Some w -> computed g k d = Some w.
Proof. intros Hl. now apply loaded_once_inv. Qed.

(** A getter that computes [v] on a miss returns [v] on every dataset loaded
    once, and on every dataset at all when nothing is memoized for [m]. *)
Lemma by_lifecycle (g : getter) (m : Z) (v : float) (d : Dataset) :
  coerces g = true -> m <> 0 ->
  (values d !! (own g, m) = None ->
   run g (given m) d = Some (v, store (own g) m v d)) ->
  computed g m d = Some v ->
  loaded_once d \/ values d !! (own g, m) = None ->
  run g (given m) d = Some (v, store (own g) m v d).
Proof.
  intros Hc Hm Hmiss Hv H.
  destruct (values d !! (own g, m)) as [w|] eqn:E; [| now apply Hmiss].
  destruct H as [Hl | Hn]; [| discriminate].
  pose proof (loaded_once_entry g m d w Hl Hc Hm E) as Hw.
  rewrite Hv in Hw. injection Hw as <-.
  rewrite store_id by assumption. apply run_hit.
  now rewrite or1_given.
Qed.

Lemma with_phase_loaded_once (a : list float) : loaded_once (with_phase a).
Proof. apply (once_phase 0 None "now" a). apply with_phase_loaded. Qed.

(** ** C1: the Allan deviation *)

Lemma adev_loop_spec (x : list float) (m : Z) :
  adev_loop x m
  = Some (Z.max 0 (alen x - 2 * m),
          (fsum (adev_terms x m), alen (adev_terms x m))).
Proof.
  unfold adev_loop. rewrite sq_loop_steps by lia.
  rewrite steps_one, Z.div_1_r, !Z.sub_0_r. unfold adev_terms, diff2.
  rewrite !alen_fmap. do 2 f_equal. lia.
Qed.

(** What [getAdev] computes, whenever its entry is not yet memoized or holds
    this very number. *)
Lemma getAdev_computes (d : Dataset) (m : Z) :
  1 <= m ->
  (forall w, values d !! (adev, m) = Some w -> w = adev_spec (x d) m) ->
  getAdev (given m) d
  = Some (adev_spec (x d) m, store adev m (adev_spec (x d) m) d).
Proof.
  intros Hm Hc. unfold getAdev.
  replace (or1 (given m)) with m by (destruct m; simpl; lia || reflexivity).
  apply memo_pure; [| assumption].
  rewrite adev_loop_spec. simpl. unfold adev_spec, MIN_SAMPLES.
  rewrite Z.gtb_ltb. reflexivity.
Qed.

(** C1.  On every dataset loaded once, and on every dataset at all when
    [values.adev[m]] is not yet set: with [m >= 1], [getAdev(m)] accumulates
    the squares of [v = x[i+2m] - 2*x[i+m] + x[i]] for [i = 0, 1, 2, ...]
    below [N - 2m] (the index advances by 1), counts them as [n], and
    returns [sqrt(sum / (2n)) / m] when [n > 3] and [0] otherwise; that
    number is what [values.adev[m]] holds afterwards. *)
Theorem getAdev_spec (d : Dataset) (m : Z) :
  1 <= m ->
  loaded_once d \/ values d !! (adev, m) = None ->
  getAdev (given m) d
  = Some (adev_spec (x d) m, store adev m (adev_spec (x d) m) d).
Proof.
  intros Hm H.
  apply (by_lifecycle GAdev m (adev_spec (x d) m) d);
    [reflexivity | lia | | | assumption].
  - intros Hn. apply getAdev_computes; [assumption |].
    intros w Hw. cbn [own] in Hn. congruence.
  - unfold computed. cbn [run]. rewrite getAdev_computes; [reflexivity | lia |].
    intros w Hw. simpl in Hw. now rewrite lookup_empty in Hw.
Qed.

Lemma getAdev_spec_witness :
  getAdev (given 1) queried
  = Some (adev_spec (x queried) 1,
          store adev 1 (adev_spec (x queried) 1) queried).
Proof.
  apply getAdev_spec; [lia |]. left.
  apply (once_get (with_phase squares) queried GAdev (given 1) (sqrt 2)%float).
  - apply (once_phase 0 None "now" squares). vm_compute. reflexivity.
  - vm_compute. reflexivity.
Defined.

(** On [squares] every second difference is 2: eight samples give six
    terms and [sqrt(24 / 12) / 1]; on the linear [ramp] the deviation is
    [0]. *)
Example adev_squares :
  fst <$> getAdev (given 1) (with_phase squares) = Some (sqrt 2)%float.
Proof. vm_compute. reflexivity. Qed.

(** With [m = 2] the index of [getAdev] visits [0, 1, 2, 3]; that of
    [getOadev], which advances by [m], visits [0, 2]. *)
Example adev_steps_by_one :
  term_count EAdev (with_phase squares) 2 = Some 4
  /\ term_count EOadev (with_phase squares) 2 = Some 2.
Proof. vm_compute. split; reflexivity. Qed.

Example adev_hdev_ramp :
  fst <$> getAdev (given 1) (with_phase ramp) = Some zero
  /\ fst <$> getHdev (given 1) (with_phase ramp) = Some zero.
Proof. vm_compute. split; reflexivity. Qed.

(** ** C2: the gate on the number of terms *)

(** A call that computes: with a count of at most 3 the answer is [0]. *)
Lemma few_terms_compute (e : estimator) (d : Dataset) (m : Z) :
  1 <= m ->
  values d !! (own (est_getter e), m) = None ->
  exists n,
    term_count e d m = Some n
    /\ (n <= 3 ->
        run (est_getter e) (given m) d
        = Some (zero, store (own (est_getter e)) m zero d)).
Proof.
  intros Hm Hmiss.
  assert (Hor : or1 (given m) = m) by (apply or1_given; lia).
  destruct e; cbn [est_getter own run term_count] in *;
    unfold getAdev, getOadev, getMdev, getHdev, getOhdev, getTotdev,
      getMtotdev, getHtotdev; rewrite Hor.
  - unfold adev_loop.
    destruct (sq_loop_total (diff2 (x d) m) (alen (x d) - 2 * m) 1)
      as [[i [s n]] E]; [lia |].
    exists n. split; [now rewrite E |]. intros Hn.
    apply memo_miss; [assumption |]. unfold adev_loop. rewrite E. simpl.
    now rewrite gate_closed.
  - unfold oadev_loop.
    destruct (sq_loop_total (diff2 (x d) m) (alen (x d) - 2 * m) m)
      as [[i [s n]] E]; [lia |].
    exists n. split; [now rewrite E |]. intros Hn.
    apply memo_miss; [assumption |]. unfold oadev_loop. rewrite E. simpl.
    now rewrite gate_closed.
  - destruct (mdev_loop_total (x d) m) as [[s n] E].
    exists n. split; [now rewrite E |]. intros Hn.
    apply memo_miss; [assumption |]. rewrite E. simpl.
    now rewrite gate_closed.
  - unfold hdev_loop.
    destruct (sq_loop_total (diff3 (x d) m) (alen (x d) - 3 * m) 1)
      as [[i [s n]] E]; [lia |].
    exists n. split; [now rewrite E |]. intros Hn.
    apply memo_miss; [assumption |]. unfold hdev_loop. rewrite E. simpl.
    now rewrite gate_closed.
  - unfold ohdev_loop.
    destruct (sq_loop_total (diff3 (x d) m) (alen (x d) - 3 * m) m)
      as [[i [s n]] E]; [lia |].
    exists n. split; [now rewrite E |]. intros Hn.
    apply memo_miss; [assumption |]. unfold ohdev_loop. rewrite E. simpl.
    now rewrite gate_closed.
  - destruct (totdev_loop_total (x d) m) as [[s n] E].
    exists n. split; [now rewrite E |]. intros Hn.
    apply memo_miss; [assumption |]. rewrite E. simpl.
    now rewrite gate_closed.
  - destruct (tot_loop_total (x d) (half_of (given m)) m) as [[n s] E].
    exists n. split; [now rewrite E |]. intros Hn.
    apply memo_miss; [assumption |]. rewrite E. simpl.
    now rewrite gate_closed.
  - destruct (tot_loop_total (y d) (half_of (given m)) m) as [[n s] E].
    exists n. split; [now rewrite E |]. intros Hn.
    apply memo_miss; [assumption |]. rewrite E. simpl.
    now rewrite gate_closed.
Qed.

(** C2.  On every dataset loaded once, and on every dataset at all when
    nothing is memoized for [m]: for each of the eight estimators with the
    test [n > MIN_SAMPLES] and every [m >= 1], the loops of the estimator
    come to an end with some count [n], and whenever [n <= 3] the estimator
    returns exactly [0], which is what its entry holds afterwards; no error
    is raised and no square root is taken. *)
Theorem few_terms_give_zero (e : estimator) (d : Dataset) (m : Z) :
  1 <= m ->
  loaded_once d \/ values d !! (own (est_getter e), m) = None ->
  exists n,
    term_count e d m = Some n
    /\ (n <= 3 ->
        run (est_getter e) (given m) d
        = Some (zero, store (own (est_getter e)) m zero d)).
Proof.
  intros Hm H.
  destruct (values d !! (own (est_getter e), m)) as [w|] eqn:E;
    [| now apply few_terms_compute].
  destruct H as [Hl | Hn]; [| discriminate].
  destruct (few_terms_compute e (clear d) m Hm (lookup_empty _))
    as (n & Hn & Hz).
  exists n. split; [exact Hn |]. intros Hle. specialize (Hz Hle).
  assert (w = zero) as ->.
  { destruct (coerces (est_getter e)) eqn:Hc.
    - apply (loaded_once_entry _ m d w Hl Hc) in E; [| lia].
      unfold computed in E. rewrite Hz in E. now injection E as <-.
    - apply loaded_once_inv in Hl as [_ Hg].
      assert (Hk : m <> 0) by lia.
      destruct e; try discriminate Hc; cbn [term_count est_getter own] in *.
      + destruct (tot_count (x d) (half_of (given m)) m) as [s Es].
        simpl x in Hn. rewrite Es in Hn. injection Hn as <-.
        apply (proj1 (Hg m w Hk) E). lia.
      + destruct (tot_count (y d) (half_of (given m)) m) as [s Es].
        simpl y in Hn. rewrite Es in Hn. injection Hn as <-.
        apply (proj2 (Hg m w Hk) E). lia. }
  rewrite store_id by assumption. apply run_hit. now rewrite or1_given by lia.
Qed.

Lemma few_terms_give_zero_witness :
  exists n,
    term_count EAdev (with_phase short) 1 = Some n
    /\ (n <= 3 ->
        run (est_getter EAdev) (given 1) (with_phase short)
        = Some (zero, store (own (est_getter EAdev)) 1 zero
                        (with_phase short))).
Proof.
  apply few_terms_give_zero; [lia |]. left.
  apply (once_phase 0 None "now" short). vm_compute. reflexivity.
Defined.

(** Four samples with curvature give two terms, and the answer [0]. *)
Example adev_short :
  term_count EAdev (with_phase short) 1 = Some 2
  /\ fst <$> getAdev (given 1) (with_phase short) = Some zero.
Proof. vm_compute. split; reflexivity. Qed.

(** ** C3: loading and the memoization table *)

(** After [getAdev(1)] on [squares] and a reload with [flat],
    [getAdev(1)] still answers the value computed from [squares]; computed
    from [flat] it is [0]. *)
Lemma reload_returns_stale_adev :
  (d2 ← snd <$> getAdev (given 1) (with_phase squares);
   d3 ← loadPhaseFromArray flat d2;
   fst <$> getAdev (given 1) d3)
  = Some (sqrt 2)%float
  /\ fst <$> getAdev (given 1) (with_phase flat) = Some zero.
Proof. vm_compute. split; reflexivity. Qed.

(** After [getMdev(1)] on [squares] and a reload with [flat],
    [values.tdev[1]] is not set, and still [getTdev(1)] answers from the
    stale [values.mdev[1]]; computed from [flat] it is [0]. *)
Example reload_stale_callee :
  (d2 ← snd <$> getMdev (given 1) (with_phase squares);
   d3 ← loadPhaseFromArray flat d2;
   Some (values d3 !! (tdev, 1), fst <$> getTdev (given 1) d3))
  = Some (None, Some (sqrt 2 * 1 / sqrt 3)%float)
  /\ fst <$> getTdev (given 1) (with_phase flat) = Some zero.
Proof. vm_compute. split; reflexivity. Qed.

(** A getter that finds neither its own entry nor the entry of the getter
    it calls computes from the sample arrays alone. *)
Ltac split_loops :=
  repeat match goal with
         | |- context [mbind _ ?o] =>
             destruct o as [[? ?]|]; progress cbn [mbind option_bind]
         end.

Lemma direct_unset_is_fresh (g : getter) (m : arg) (d : Dataset) :
  calls_none g = true ->
  values d !! (own g, or1 m) = None ->
  fst <$> run g m d = fst <$> run g m (clear d).
Proof.
  intros Hc Hown.
  destruct g; try discriminate Hc; cbn [run own] in *; unfold_getters;
    unfold memo; rewrite Hown; cbn [values clear x y];
    rewrite lookup_empty; split_loops;
    repeat match goal with q : prod _ _ |- _ => destruct q end;
    reflexivity.
Qed.

Lemma run_unset_is_fresh (g : getter) (m : arg) (d : Dataset) :
  (forall s, s ∈ writes g -> values d !! (s, or1 m) = None) ->
  fst <$> run g m d = fst <$> run g m (clear d).
Proof.
  intros Hn. pose proof (or1_nonzero m) as Hnz.
  assert (Hown : values d !! (own g, or1 m) = None).
  { apply Hn. destruct g; simpl; rewrite ?elem_of_cons; auto. }
  destruct (calls_none g) eqn:Hc; [now apply direct_unset_is_fresh |].
  destruct g; try discriminate Hc; cbn [run own writes] in *.
  - (* getStdev *)
    assert (Hy : values d !! (yavg, or1 m) = None)
      by (apply Hn; rewrite !elem_of_cons; auto).
    pose proof (direct_unset_is_fresh GFreqAvg (given (or1 m)) d eq_refl) as E.
    cbn [run own] in E. rewrite or1_given in E by assumption.
    specialize (E Hy).
    unfold getStdev, memo. rewrite Hown. cbn [values clear x y].
    rewrite lookup_empty.
    destruct (getFreqAvg (given (or1 m)) d) as [[a d1]|] eqn:E1;
      destruct (getFreqAvg (given (or1 m)) (clear d)) as [[a' d1']|] eqn:E2;
      simpl in E; try discriminate E; [| reflexivity].
    injection E as <-.
    apply getFreqAvg_frame in E1, E2.
    destruct E1 as (_ & _ & _ & Hy1 & _). destruct E2 as (_ & _ & _ & Hy2 & _).
    cbn [mbind option_bind]. unfold _freqAvg. rewrite Hy1, Hy2.
    cbn [clear y].
    destruct (for_lt _ _ _ _ _) as [[i s]|]; reflexivity.
  - (* getTdev *)
    assert (Hy : values d !! (mdev, or1 m) = None)
      by (apply Hn; rewrite !elem_of_cons; auto).
    pose proof (direct_unset_is_fresh GMdev (given (or1 m)) d eq_refl) as E.
    cbn [run own] in E. rewrite or1_given in E by assumption.
    specialize (E Hy).
    unfold getTdev, memo. rewrite Hown. cbn [values clear x y].
    rewrite lookup_empty.
    destruct (getMdev (given (or1 m)) d) as [[a d1]|];
      destruct (getMdev (given (or1 m)) (clear d)) as [[a' d1']|];
      simpl in E; try discriminate E; [| reflexivity].
    injection E as <-. reflexivity.
  - (* getTtotdev *)
    assert (Hy : values d !! (mtotdev, or1 m) = None)
      by (apply Hn; rewrite !elem_of_cons; auto).
    pose proof (direct_unset_is_fresh GMtotdev (given (or1 m)) d eq_refl) as E.
    cbn [run own] in E. rewrite or1_given in E by assumption.
    specialize (E Hy).
    unfold getTtotdev, memo. rewrite Hown. cbn [values clear x y].
    rewrite lookup_empty.
    destruct (getMtotdev (given (or1 m)) d) as [[a d1]|];
      destruct (getMtotdev (given (or1 m)) (clear d)) as [[a' d1']|];
      simpl in E; try discriminate E; [| reflexivity].
    injection E as <-. reflexivity.
Qed.

(** C3, as the code has it.  [loadPhaseFromArray] and [loadFreqFromArray]
    replace [x] and [y] and leave [this.values] exactly as it was: every
    statistic memoized before the load is returned unchanged after it, not
    computed from the new samples.  A statistic is computed from the new
    samples alone when neither its own entry nor the entry of the getter it
    calls was set before the load: it then returns what it returns on the
    loaded dataset with an empty table. *)
Theorem load_keeps_values (a : list float) (d : Dataset) :
  (exists d',
      loadPhaseFromArray a d = Some d'
      /\ x d' = a /\ phaseToFreq a omitted = Some (y d')
      /\ values d' = values d
      /\ (forall g m v,
            values d !! (own g, or1 m) = Some v -> run g m d' = Some (v, d'))
      /\ (forall g m,
            (forall s, s ∈ writes g -> values d !! (s, or1 m) = None) ->
            fst <$> run g m d' = fst <$> run g m (clear d')))
  /\ (exists d',
         loadFreqFromArray a d = Some d'
         /\ y d' = a /\ freqToPhase a omitted = Some (x d')
         /\ values d' = values d
         /\ (forall g m v,
               values d !! (own g, or1 m) = Some v ->
               run g m d' = Some (v, d'))
         /\ (forall g m,
               (forall s, s ∈ writes g -> values d !! (s, or1 m) = None) ->
               fst <$> run g m d' = fst <$> run g m (clear d'))).
Proof.
  split.
  - unfold loadPhaseFromArray.
    destruct (phaseToFreq_total a omitted) as [f ->]. simpl.
    eexists. split; [reflexivity |]. simpl. repeat split.
    + intros g m v H. now apply run_hit.
    + intros g m H. now apply run_unset_is_fresh.
  - unfold loadFreqFromArray.
    destruct (freqToPhase_total a omitted) as [f ->]. simpl.
    eexists. split; [reflexivity |]. simpl. repeat split.
    + intros g m v H. now apply run_hit.
    + intros g m H. now apply run_unset_is_fresh.
Qed.

(** ** Binary64 arithmetic on integer multiples of a power of two *)



























Lemma scaled_num (z : Z) : scaled z 0 = num z.
Proof. reflexivity. Qed.

(** ** C4: phase to frequency and back *)













(** Integer samples with small sums make every step exact. *)
Example roundtrip_small_integers :
  (p ← freqToPhase [1; 3; 5; 7; 9; 11; 13]%float omitted;
   phaseToFreq p omitted)
  = Some [1; 3; 5; 7; 9; 11; 13]%float.
Proof. vm_compute. reflexivity. Qed.


(** A round trip can also be exact where the steps round:
    [[2^-60, 1]] comes back as it was. *)
Example roundtrip_tiny_then_one :
  (p ← freqToPhase [0x1p-60; 1]%float omitted; phaseToFreq p omitted)
  = Some [0x1p-60; 1]%float.
Proof. vm_compute. reflexivity. Qed.

(** ** C5: the time deviation *)

Lemma not_tdev_writes (g : getter) (m k : Z) :
  g <> GTdev -> (tdev, k) ∉ (fun s => (s, m)) <$> writes g.
Proof.
  intros Hg Hin. destruct g; simpl in Hin; try congruence;
    rewrite ?elem_of_cons, elem_of_nil in Hin; intuition discriminate.
Qed.

Lemma getTdev_preserves (m : arg) (d d' : Dataset) (v : float) :
  tdev_from_mdev d -> getTdev m d = Some (v, d') -> tdev_from_mdev d'.
Proof.
  intros Hinv. unfold getTdev, memo.
  pose proof (or1_nonzero m) as Hnz.
  destruct (values d !! (tdev, or1 m)) as [w|] eqn:E.
  { now intros [= <- <-]. }
  simpl. destruct (getMdev (given (or1 m)) d) as [[a d2]|] eqn:Em;
    simpl; [| discriminate].
  intros [= <- <-].
  pose proof (memo_lookup _ _ _ _ _ _ Em) as Hl.
  apply getMdev_frame in Em. rewrite or1_given in * by assumption.
  destruct Em as (_ & _ & _ & _ & Hout & Hmono).
  intros k t Hk. simpl in *.
  destruct (decide (k = or1 m)) as [-> | Hne].
  - rewrite lookup_insert_eq in Hk. injection Hk as <-.
    exists a. split; [| reflexivity].
    rewrite lookup_insert_ne by congruence. assumption.
  - rewrite lookup_insert_ne in Hk by congruence.
    rewrite Hout in Hk
      by (rewrite elem_of_cons, elem_of_nil; intuition discriminate).
    destruct (Hinv k t Hk) as (u & Hu & ->).
    exists u. split; [| reflexivity].
    rewrite lookup_insert_ne by congruence. now apply Hmono.
Qed.

Lemma exec_preserves (o : op) (d d' : Dataset) :
  tdev_from_mdev d -> exec o d = Some d' -> tdev_from_mdev d'.
Proof.
  intros Hinv H. destruct o as [a | a | g m].
  - apply load_values in H; [| exact I]. unfold tdev_from_mdev. now rewrite H.
  - apply load_values in H; [| exact I]. unfold tdev_from_mdev. now rewrite H.
  - simpl in H. destruct (run g m d) as [[v d1]|] eqn:E; [| discriminate].
    injection H as <-.
    destruct (decide (g = GTdev)) as [-> | Hg].
    + eapply getTdev_preserves; eauto.
    + apply run_frame in E. destruct E as (_ & _ & _ & _ & Hout & Hmono).
      intros k t Hk. rewrite Hout in Hk by now apply not_tdev_writes.
      destruct (Hinv k t Hk) as (u & Hu & ->).
      exists u. split; [now apply Hmono | reflexivity].
Qed.

Lemma reachable_tdev_from_mdev (d : Dataset) :
  reachable d -> tdev_from_mdev d.
Proof.
  induction 1 as [c nm now | d d' o _ IH H].
  - intros k t Hk. simpl in Hk. now rewrite lookup_empty in Hk.
  - eapply exec_preserves; eauto.
Qed.

Lemma getMdev_cached (d : Dataset) (m : Z) (v : float) :
  m <> 0 ->
  values d !! (mdev, m) = Some v -> getMdev (given m) d = Some (v, d).
Proof.
  intros Hm H. unfold getMdev. rewrite or1_given by assumption.
  now apply memo_hit.
Qed.

(** Once [values.mdev[m]] holds [v], [getTdev(m)] answers
    [v * m / Math.sqrt(3)], computed now or memoized earlier. *)
Lemma getTdev_after_mdev (d : Dataset) (m : Z) (v : float) :
  tdev_from_mdev d ->
  m <> 0 ->
  values d !! (mdev, m) = Some v ->
  exists d', getTdev (given m) d = Some ((v * num m / sqrt3)%float, d')
             /\ values d' !! (mdev, m) = Some v.
Proof.
  intros Hinv Hm Hv. unfold getTdev, memo. rewrite or1_given by assumption.
  destruct (values d !! (tdev, m)) as [t|] eqn:E.
  - destruct (Hinv m t E) as (u & Hu & ->).
    rewrite Hv in Hu. injection Hu as <-. eauto.
  - rewrite (getMdev_cached d m v) by assumption. simpl.
    eexists. split; [reflexivity |]. simpl.
    rewrite lookup_insert_ne by congruence. assumption.
Qed.

(** C5.  On every dataset a program can build (construction, loads and
    getter calls in any order) and for every [m >= 1], [getMdev(m)] returns
    some [v] and [getTdev(m)] returns exactly [v * m / Math.sqrt(3)]; the
    same two numbers come back when one getter is called after the other,
    in either order. *)
Theorem getTdev_is_scaled_getMdev (d : Dataset) (m : Z) :
  reachable d ->
  1 <= m ->
  exists v d1 d2,
    getMdev (given m) d = Some (v, d1)
    /\ getTdev (given m) d = Some ((v * num m / sqrt3)%float, d2)
    /\ fst <$> getMdev (given m) d2 = Some v
    /\ fst <$> getTdev (given m) d1 = Some (v * num m / sqrt3)%float.
Proof.
  intros Hr Hm. assert (Hnz : m <> 0) by lia.
  destruct (getMdev_total (given m) d) as [[v d1] Em].
  pose proof Em as Hl. unfold getMdev in Hl. apply memo_lookup in Hl.
  rewrite or1_given in Hl by assumption.
  assert (Hr1 : reachable d1).
  { apply (reach_step d d1 (Get GMdev (given m)) Hr). simpl.
    now rewrite Em. }
  apply reachable_tdev_from_mdev in Hr, Hr1.
  destruct (getTdev_after_mdev d1 m v Hr1 Hnz Hl) as (d1' & Ht1 & _).
  exists v, d1.
  assert (exists d2, getTdev (given m) d
                     = Some ((v * num m / sqrt3)%float, d2)
                     /\ values d2 !! (mdev, m) = Some v) as (d2 & Ht & Hv2).
  { unfold getTdev, memo. rewrite or1_given by assumption.
    destruct (values d !! (tdev, m)) as [t|] eqn:E.
    - destruct (Hr m t E) as (u & Hu & ->).
      rewrite (getMdev_cached d m u) in Em by assumption.
      injection Em as -> ->. eauto.
    - rewrite Em. simpl. eexists. split; [reflexivity |]. simpl.
      rewrite lookup_insert_ne by congruence. assumption. }
  exists d2. split; [assumption |]. split; [assumption |]. split.
  - now rewrite (getMdev_cached d2 m v).
  - now rewrite Ht1.
Qed.

Lemma getTdev_is_scaled_getMdev_witness :
  exists v d1 d2,
    getMdev (given 1) (with_phase squares) = Some (v, d1)
    /\ getTdev (given 1) (with_phase squares)
       = Some ((v * num 1 / sqrt3)%float, d2)
    /\ fst <$> getMdev (given 1) d2 = Some v
    /\ fst <$> getTdev (given 1) d1 = Some (v * num 1 / sqrt3)%float.
Proof.
  apply getTdev_is_scaled_getMdev; [| lia].
  apply (reach_step blank _ (LoadPhase squares)).
  - apply (reach_new 0 None "now").
  - vm_compute. reflexivity.
Defined.

(** On [squares], [getMdev(1)] is [sqrt(2)] and [getTdev(1)] is
    [sqrt(2) * 1 / sqrt(3)]. *)
Example tdev_squares :
  fst <$> getMdev (given 1) (with_phase squares) = Some (sqrt 2)%float
  /\ fst <$> getTdev (given 1) (with_phase squares)
     = Some (sqrt 2 * 1 / sqrt 3)%float.
Proof. vm_compute. split; reflexivity. Qed.

(** ** C6: the windowed average *)

Lemma fold_left_fmap_add (f : Z -> float) (l : list Z) (s : float) :
  fold_left PrimFloat.add (f <$> l) s
  = fold_left (fun s j => (s + f j)%float) l s.
Proof. revert s. induction l as [|j l IH]; intros s; simpl; auto. Qed.

Lemma _arrayAvg_spec (i m : Z) (a : list float) :
  _arrayAvg i m a = Some (block_mean a m i).
Proof.
  unfold _arrayAvg, block_mean, fsum. rewrite for_lt_one, foldM_pure.
  simpl. rewrite fold_left_fmap_add, Z.sub_0_r. reflexivity.
Qed.

Lemma avg_loop_spec (a : list float) (m : Z) :
  1 <= m ->
  avg_loop a m
  = Some (m * Z.max 0 ((alen a - 0 - 1) `div` m + 1),
          fsum (block_mean a m <$> block_starts (alen a) m)).
Proof.
  intros Hm. unfold avg_loop. rewrite for_lt_steps by assumption.
  rewrite (foldM_ext _ (fun i sum => Some (sum + block_mean a m i)%float)).
  - rewrite foldM_pure, steps_block_starts by assumption.
    unfold fsum. now rewrite fold_left_fmap_add.
  - intros i s. now rewrite _arrayAvg_spec.
Qed.

(** What an average getter computes, whenever its entry is not yet
    memoized or holds this very number. *)
Lemma average_computes (s : series) (d : Dataset) (m : Z) :
  1 <= m ->
  (forall w, values d !! (own (avg_of s), m) = Some w ->
             w = avg_spec (samples s d) m) ->
  run (avg_of s) (given m) d
  = Some (avg_spec (samples s d) m,
          store (own (avg_of s)) m (avg_spec (samples s d) m) d).
Proof.
  intros Hm Hc.
  assert (Hor : or1 (given m) = m) by (apply or1_given; lia).
  destruct s; cbn [run avg_of own samples] in *;
    unfold getPhaseAvg, getFreqAvg; rewrite Hor;
    (apply memo_pure; [| assumption]); now rewrite avg_loop_spec.
Qed.

Lemma average_by_lifecycle (s : series) (d : Dataset) (m : Z) :
  1 <= m ->
  loaded_once d \/ values d !! (own (avg_of s), m) = None ->
  run (avg_of s) (given m) d
  = Some (avg_spec (samples s d) m,
          store (own (avg_of s)) m (avg_spec (samples s d) m) d).
Proof.
  intros Hm H.
  apply (by_lifecycle (avg_of s) m (avg_spec (samples s d) m) d);
    [now destruct s | lia | | | assumption].
  - intros Hn. apply average_computes; [assumption |].
    intros w Hw. congruence.
  - unfold computed.
    rewrite (average_computes s (clear d) m Hm); [now destruct s |].
    intros w Hw. simpl in Hw. now rewrite lookup_empty in Hw.
Qed.

(** C6.  On every dataset loaded once, and on every dataset at all when
    [values.xavg[m]] and [values.yavg[m]] are not yet set: with [m >= 1],
    [getPhaseAvg(m)] on [x] and [getFreqAvg(m)] on [y] return the sum of the
    block averages [mean(a[i .. i+m-1])] taken at [i = 0, m, 2m, ...] below
    [len], multiplied by [m] and divided by [len], and store that number. *)
Theorem windowed_average_spec (d : Dataset) (m : Z) :
  1 <= m ->
  loaded_once d
  \/ (values d !! (xavg, m) = None /\ values d !! (yavg, m) = None) ->
  getPhaseAvg (given m) d
  = Some (avg_spec (x d) m, store xavg m (avg_spec (x d) m) d)
  /\ getFreqAvg (given m) d
     = Some (avg_spec (y d) m, store yavg m (avg_spec (y d) m) d).
Proof.
  intros Hm H. split.
  - apply (average_by_lifecycle Phase d m Hm). cbn [avg_of own]. tauto.
  - apply (average_by_lifecycle Freq d m Hm). cbn [avg_of own]. tauto.
Qed.

Lemma windowed_average_spec_witness :
  getPhaseAvg (given 2) queried
  = Some (avg_spec (x queried) 2,
          store xavg 2 (avg_spec (x queried) 2) queried)
  /\ getFreqAvg (given 2) queried
     = Some (avg_spec (y queried) 2,
             store yavg 2 (avg_spec (y queried) 2) queried).
Proof.
  apply windowed_average_spec; [lia |]. left.
  apply (once_get (with_phase squares) queried GAdev (given 1) (sqrt 2)%float).
  - apply (once_phase 0 None "now" squares). vm_compute. reflexivity.
  - vm_compute. reflexivity.
Defined.

(** Eight phase samples in blocks of two: the block averages sum to 70 and
    the result is [70 * 2 / 8].  The seven frequency samples leave a last
    block that reads [y[7]], which is [undefined]: the average is NaN. *)
Example avg_squares :
  fst <$> getPhaseAvg (given 2) (with_phase squares) = Some 17.5%float
  /\ fst <$> getFreqAvg (given 2) (with_phase squares) = Some nan.
Proof. vm_compute. split; reflexivity. Qed.

(** ** C7: the total deviation *)

Lemma fold_reflect (f g : Z -> float) (l : list Z) (nx : list float)
    (e : Z) :
  foldM (fun i '(nx, e) =>
           let nx := f i :: nx in
           let nx := nx ++ [g i] in
           Some (nx, e + 1))
        l (nx, e)
  = Some (rev (f <$> l) ++ nx ++ (g <$> l), e + alen l).
Proof.
  revert nx e. induction l as [|i l IH]; intros nx e; simpl.
  - rewrite app_nil_r. unfold alen. simpl. do 2 f_equal. lia.
  - rewrite IH. do 2 f_equal.
    + simpl. rewrite <- !app_assoc. reflexivity.
    + unfold alen. simpl length. lia.
Qed.

Lemma totdev_extend_spec (x : list float) :
  totdev_extend x
  = Some (Z.max 1 (alen x - 1), (mirror x, Z.max 0 (alen x - 2))).
Proof.
  unfold totdev_extend. rewrite for_lt_one, fold_reflect.
  unfold mirror. rewrite alen_seqZ.
  replace (alen x - 1 - 1) with (alen x - 2) by lia. reflexivity.
Qed.

Lemma totdev_loop_spec (x : list float) (m : Z) :
  2 <= alen x ->
  totdev_loop x m
  = let N := alen x in
    let e := N - 2 in
    let nx := mirror x in
    if e + N + m - 1 <=? 3 * N - 4 then
      let terms :=
        (fun i =>
           let v :=
             (nx.[e + i - m] - 2 * nx.[e + i] + nx.[e + i + m])%float in
           (v * v)%float) <$> seqZ 1 (N - 2) in
      Some ((fsum terms / 2)%float, alen terms)
    else Some (zero, 0).
Proof.
  intros HN. unfold totdev_loop. rewrite totdev_extend_spec. simpl.
  rewrite Z.max_r by lia.
  destruct (alen x - 2 + alen x + m - 1 <=? 3 * alen x - 4); [| reflexivity].
  rewrite for_lt_one.
  rewrite (fold_squares
             (fun i => (mirror x).[alen x - 2 + i - m]
                       - 2 * (mirror x).[alen x - 2 + i]
                       + (mirror x).[alen x - 2 + i + m])%float).
  simpl. rewrite alen_fmap.
  replace (alen x - 1 - 1) with (alen x - 2) by lia. reflexivity.
Qed.

(** What [getTotdev] computes, whenever its entry is not yet memoized or
    holds this very number. *)
Lemma getTotdev_computes (d : Dataset) (m : Z) :
  2 <= alen (x d) ->
  1 <= m ->
  (forall w, values d !! (totdev, m) = Some w -> w = totdev_spec (x d) m) ->
  getTotdev (given m) d
  = Some (totdev_spec (x d) m, store totdev m (totdev_spec (x d) m) d).
Proof.
  intros HN Hm Hc.
  assert (Hor : or1 (given m) = m) by (apply or1_given; lia).
  unfold getTotdev. rewrite Hor. apply memo_pure; [| assumption].
  rewrite totdev_loop_spec by assumption. unfold totdev_spec. simpl.
  destruct (alen (x d) - 2 + alen (x d) + m - 1 <=? 3 * alen (x d) - 4);
    simpl; unfold MIN_SAMPLES; rewrite ?Z.gtb_ltb; reflexivity.
Qed.

(** C7.  On every dataset loaded once, and on every dataset at all when
    [values.totdev[m]] is not yet set: with [N >= 2] samples and [m >= 1],
    [getTotdev(m)] works on [x] extended by [2*x[0] - x[i]] in front and
    [2*x[N-1] - x[N-1-i]] behind, [i = 1 .. N-2]; when
    [e + len + m - 1 <= 3*len - 4] it sums the squared centred second
    differences over [i = 1 .. N-2], halves the sum and returns
    [sqrt(sum / n) / m] if [n > 3]; otherwise, and when the guard fails, it
    returns [0]. *)
Theorem getTotdev_spec (d : Dataset) (m : Z) :
  2 <= alen (x d) ->
  1 <= m ->
  loaded_once d \/ values d !! (totdev, m) = None ->
  getTotdev (given m) d
  = Some (totdev_spec (x d) m, store totdev m (totdev_spec (x d) m) d).
Proof.
  intros HN Hm H.
  apply (by_lifecycle GTotdev m (totdev_spec (x d) m) d);
    [reflexivity | lia | | | assumption].
  - intros Hn. apply getTotdev_computes; [assumption | assumption |].
    intros w Hw. cbn [own] in Hn. congruence.
  - unfold computed. cbn [run].
    rewrite getTotdev_computes; [reflexivity | assumption | lia |].
    intros w Hw. simpl in Hw. now rewrite lookup_empty in Hw.
Qed.

Lemma getTotdev_spec_witness :
  getTotdev (given 1) queried
  = Some (totdev_spec (x queried) 1,
          store totdev 1 (totdev_spec (x queried) 1) queried).
Proof.
  apply getTotdev_spec; [vm_compute; discriminate | lia |]. left.
  apply (once_get (with_phase squares) queried GAdev (given 1) (sqrt 2)%float).
  - apply (once_phase 0 None "now" squares). vm_compute. reflexivity.
  - vm_compute. reflexivity.
Defined.

(** On [squares] the guard holds up to [m = 7] and fails from [m = 8]. *)
Example totdev_squares :
  fst <$> getTotdev (given 1) (with_phase squares) = Some (sqrt 2)%float
  /\ snd <$> totdev_loop squares 7 = Some 6
  /\ totdev_loop squares 8 = Some (zero, 0).
Proof. vm_compute. repeat split. Qed.

(** ** C8: an averaging factor larger than the array *)

Lemma add_nan_r (a : float) : (a + nan)%float = nan.
Proof.
  apply Prim2SF_inj. rewrite add_spec.
  destruct (Prim2SF a) as [ | | |s m e]; try destruct s; reflexivity.
Qed.

Lemma add_nan_l (a : float) : (nan + a)%float = nan.
Proof.
  apply Prim2SF_inj. rewrite add_spec.
  destruct (Prim2SF a) as [ | | |s m e]; try destruct s; reflexivity.
Qed.

Lemma mul_nan_l (a : float) : (nan * a)%float = nan.
Proof.
  apply Prim2SF_inj. rewrite mul_spec.
  destruct (Prim2SF a) as [ | | |s m e]; try destruct s; reflexivity.
Qed.

Lemma div_nan_l (a : float) : (nan / a)%float = nan.
Proof.
  apply Prim2SF_inj. rewrite div_spec.
  destruct (Prim2SF a) as [ | | |s m e]; try destruct s; reflexivity.
Qed.

Lemma rd_outside (a : list float) (i : Z) : alen a <= i -> a.[i] = nan.
Proof.
  intros H. unfold rd, aget, alen in *.
  destruct (Z.ltb_spec i 0); [reflexivity |].
  rewrite lookup_ge_None_2 by lia. reflexivity.
Qed.

Lemma fold_add_nan (l : list float) :
  fold_left PrimFloat.add l nan = nan.
Proof.
  induction l as [|v l IH]; simpl; [reflexivity |]. now rewrite add_nan_l.
Qed.

(** A block that reaches beyond the end of the array has average NaN. *)
Lemma block_mean_beyond (a : list float) (m i : Z) :
  0 <= i -> 1 <= m -> alen a < i + m -> block_mean a m i = nan.
Proof.
  intros Hi Hm Hlen. pose proof (alen_nonneg a) as Hn.
  unfold block_mean, fsum.
  remember (Z.max 0 (alen a - i)) as k eqn:Ek.
  replace m with (k + (m - k)) at 1 by lia.
  rewrite seqZ_app by lia. rewrite fmap_app, fold_left_app.
  rewrite (seqZ_cons (0 + k)) by lia. simpl.
  rewrite (rd_outside a (i + (0 + k))) by lia.
  now rewrite add_nan_r, fold_add_nan, div_nan_l.
Qed.

Lemma steps_single (len m : Z) : 0 < len -> len <= m -> steps 0 len m = [0].
Proof.
  intros Hl Hm. rewrite steps_cons by lia. now rewrite steps_nil by lia.
Qed.

Lemma loop_trips_once (len m : Z) :
  0 < len -> len <= m -> loop_trips len m = Some 1.
Proof.
  intros Hl Hm. unfold loop_trips. rewrite for_lt_steps by lia.
  now rewrite steps_single.
Qed.

Lemma loops_beyond (a : list float) (m : Z) :
  0 < alen a -> alen a < m ->
  exists i,
    avg_loop a m = Some (i, nan)
    /\ ext_loop gt neg_infinity a m = Some (i, neg_infinity)
    /\ ext_loop PrimFloat.ltb infinity a m = Some (i, infinity).
Proof.
  intros Hl Hm. eexists. unfold avg_loop, ext_loop.
  rewrite !for_lt_steps by lia. rewrite !steps_single by lia. simpl.
  rewrite _arrayAvg_spec, block_mean_beyond by lia. simpl.
  repeat split.
Qed.

(** With one sample and [m = 2] the loop [for (i = 0; i < len; i += m)]
    runs its body once. *)
Lemma oversized_m_runs_body_once :
  loop_trips (alen (x (with_phase [num 5]))) 2 = Some 1
  /\ loop_trips (alen (x (with_phase [num 5]))) 2 <> Some 0.
Proof. vm_compute. split; [reflexivity | discriminate]. Qed.

(** The three windowed getters of a series on calls that compute, with [m]
    larger than the array. *)
Lemma oversized_computes (s : series) (d : Dataset) (m : Z) :
  0 < alen (samples s d) ->
  alen (samples s d) < m ->
  loop_trips (alen (samples s d)) m = Some 1
  /\ (values d !! (own (avg_of s), m) = None ->
      run (avg_of s) (given m) d
      = Some (nan, store (own (avg_of s)) m nan d))
  /\ (values d !! (own (max_of s), m) = None ->
      run (max_of s) (given m) d
      = Some (neg_infinity, store (own (max_of s)) m neg_infinity d))
  /\ (values d !! (own (min_of s), m) = None ->
      run (min_of s) (given m) d
      = Some (infinity, store (own (min_of s)) m infinity d)).
Proof.
  intros Hl Hm. pose proof (alen_nonneg (samples s d)) as Hn.
  assert (Hor : or1 (given m) = m) by (apply or1_given; lia).
  destruct (loops_beyond (samples s d) m Hl Hm) as (i & Ha & Hmax & Hmin).
  split; [apply loop_trips_once; lia |].
  destruct s; cbn [samples avg_of max_of min_of own run] in *;
    unfold getPhaseAvg, getPhaseMax, getPhaseMin, getFreqAvg, getFreqMax,
      getFreqMin; rewrite Hor;
    (repeat split; intros Hmiss; apply memo_miss; try assumption);
    rewrite ?Ha, ?Hmax, ?Hmin; simpl;
    rewrite ?mul_nan_l, ?div_nan_l; reflexivity.
Qed.

(** C8, as the code has it.  On every dataset loaded once, and on every
    dataset at all when the three entries are not yet set: on a non-empty
    sample array and with [m] larger than its length, the loop
    [for (i = 0; i < len; i += m)] of the windowed getters runs its body
    exactly once, at [i = 0]; the block read there reaches beyond the array,
    so its average is NaN.  The average getter then returns NaN, the maximum
    getter [-Infinity] and the minimum getter [Infinity]; each stores what it
    returns, and none fails. *)
Theorem oversized_window (s : series) (d : Dataset) (m : Z) :
  0 < alen (samples s d) ->
  alen (samples s d) < m ->
  loaded_once d
  \/ (values d !! (own (avg_of s), m) = None
      /\ values d !! (own (max_of s), m) = None
      /\ values d !! (own (min_of s), m) = None) ->
  loop_trips (alen (samples s d)) m = Some 1
  /\ run (avg_of s) (given m) d = Some (nan, store (own (avg_of s)) m nan d)
  /\ run (max_of s) (given m) d
     = Some (neg_infinity, store (own (max_of s)) m neg_infinity d)
  /\ run (min_of s) (given m) d
     = Some (infinity, store (own (min_of s)) m infinity d).
Proof.
  intros Hl Hm H. pose proof (alen_nonneg (samples s d)) as Hn.
  destruct (oversized_computes s d m Hl Hm) as (Ht & Ha & Hmax & Hmin).
  assert (Hlc : 0 < alen (samples s (clear d))) by now destruct s.
  assert (Hmc : alen (samples s (clear d)) < m) by now destruct s.
  destruct (oversized_computes s (clear d) m Hlc Hmc)
    as (_ & Hca & Hcmax & Hcmin).
  specialize (Hca (lookup_empty _)). specialize (Hcmax (lookup_empty _)).
  specialize (Hcmin (lookup_empty _)).
  split; [assumption |]. repeat split.
  - apply (by_lifecycle (avg_of s) m nan d);
      [now destruct s | lia | assumption | | tauto].
    unfold computed. now rewrite Hca.
  - apply (by_lifecycle (max_of s) m neg_infinity d);
      [now destruct s | lia | assumption | | tauto].
    unfold computed. now rewrite Hcmax.
  - apply (by_lifecycle (min_of s) m infinity d);
      [now destruct s | lia | assumption | | tauto].
    unfold computed. now rewrite Hcmin.
Qed.

Lemma oversized_window_witness :
  loop_trips (alen (samples Phase (with_phase [num 5]))) 2 = Some 1
  /\ run (avg_of Phase) (given 2) (with_phase [num 5])
     = Some (nan, store (own (avg_of Phase)) 2 nan (with_phase [num 5]))
  /\ run (max_of Phase) (given 2) (with_phase [num 5])
     = Some (neg_infinity,
             store (own (max_of Phase)) 2 neg_infinity (with_phase [num 5]))
  /\ run (min_of Phase) (given 2) (with_phase [num 5])
     = Some (infinity,
             store (own (min_of Phase)) 2 infinity (with_phase [num 5])).
Proof.
  apply oversized_window; [vm_compute; reflexivity | vm_compute; reflexivity |].
  left. apply (once_phase 0 None "now" [num 5]). vm_compute. reflexivity.
Defined.

(** ** C9: the getters leave the samples alone *)

(** [getTdev(1)] on a dataset just loaded with [squares] sets
    [values.mdev[1]], an entry other than its own [values.tdev[1]]. *)
Lemma getTdev_sets_mdev_entry :
  values (with_phase squares) !! (mdev, 1) = None
  /\ (snd <$> run GTdev (given 1) (with_phase squares))
       ≫= (fun d' => values d' !! (mdev, 1))
     = Some (sqrt 2)%float.
Proof. vm_compute. split; reflexivity. Qed.

(** On a store of objects, the first loop of [getTotdev] allocates [nx]
    and changes nothing else: in particular not [this.x].  What [nx] holds
    afterwards is what [totdev_extend] computes. *)
Lemma totdev_extend_on_fold (this_x nx : loc) (h : heap) (a : list float)
    (len : Z) (l : list Z) (cur : list float) (e : Z) :
  nx <> this_x ->
  h !! this_x = Some a ->
  foldM (fun i '(h, e) =>
           h ← unshift nx (2 * elt this_x 0 h - elt this_x i h)%float h;
           h ← push nx
                 (2 * elt this_x (len - 1) h
                  - elt this_x (len - 1 - i) h)%float h;
           Some (h, e + 1))
        l (<[nx := cur]> h, e)
  = Some (<[nx := rev ((fun i => (2 * a.[0] - a.[i])%float) <$> l)
                  ++ cur
                  ++ ((fun i => (2 * a.[len - 1] - a.[len - 1 - i])%float)
                        <$> l)]> h,
          e + alen l).
Proof.
  intros Hne Ha. revert cur e. induction l as [|i l IH]; intros cur e.
  - simpl. rewrite app_nil_r. unfold alen. simpl. do 2 f_equal. lia.
  - simpl. unfold unshift, push, elt.
    rewrite !lookup_insert_ne, Ha, lookup_insert_eq by assumption. simpl.
    rewrite !lookup_insert_ne, Ha, lookup_insert_eq by assumption. simpl.
    rewrite !insert_insert_eq. rewrite IH. do 2 f_equal.
    + f_equal. simpl. rewrite <- !app_assoc. reflexivity.
    + unfold alen. simpl length. lia.
Qed.

Lemma totdev_extend_on_spec (this_x : loc) (h : heap) (a : list float) :
  h !! this_x = Some a ->
  exists nx,
    nx <> this_x
    /\ h !! nx = None
    /\ totdev_extend_on this_x h
       = Some (nx, Z.max 0 (alen a - 2), <[nx := mirror a]> h)
    /\ totdev_extend a
       = Some (Z.max 1 (alen a - 1), (mirror a, Z.max 0 (alen a - 2))).
Proof.
  intros Ha. exists (fresh (dom h)).
  assert (Hfresh : h !! fresh (dom h) = None)
    by (apply not_elem_of_dom, is_fresh).
  assert (Hne : fresh (dom h) <> this_x) by congruence.
  repeat split; [assumption | assumption | | apply totdev_extend_spec].
  unfold totdev_extend_on, slice0. rewrite Ha. simpl.
  rewrite for_lt_one.
  rewrite (totdev_extend_on_fold this_x (fresh (dom h)) h a) by assumption.
  simpl. unfold mirror. rewrite alen_seqZ.
  replace (alen a - 1 - 1) with (alen a - 2) by lia. reflexivity.
Qed.

(** C9, as the code has it.  A getter called with any [m] for which it
    returns (it does whenever the coerced [m] is at least 1) leaves [x], [y],
    [id] and [name] as they were; in [this.values] it changes nothing but the
    entries at index [m || 1] of its own array and, for [getStdev], [getTdev]
    and [getTtotdev], of the array of the getter it calls ([yavg], [mdev],
    [mtotdev]); entries already present keep their value; and the number
    returned is the one its own entry then holds.  The reflections of
    [getTotdev] go into a newly allocated copy [nx] of [this.x]: every other
    object of the store, [this.x] among them, is as before. *)
Theorem getters_frame :
  (forall (g : getter) (m : arg) (d : Dataset),
      (1 <= or1 m -> is_Some (run g m d))
      /\ (forall v d',
            run g m d = Some (v, d') ->
            extends ((fun s => (s, or1 m)) <$> writes g) d d'
            /\ values d' !! (own g, or1 m) = Some v))
  /\ (forall (this_x : loc) (h : heap) (a : list float),
         h !! this_x = Some a ->
         exists nx,
           nx <> this_x
           /\ h !! nx = None
           /\ totdev_extend_on this_x h
              = Some (nx, Z.max 0 (alen a - 2), <[nx := mirror a]> h)
           /\ totdev_extend a
              = Some (Z.max 1 (alen a - 1),
                      (mirror a, Z.max 0 (alen a - 2)))).
Proof.
  split.
  - intros g m d. split; [apply run_total |]. intros v d' H. split.
    + eapply run_frame, H.
    + eapply run_returns_entry, H.
  - apply totdev_extend_on_spec.
Qed.

(** Eight samples at object 1 of a store: [nx] is the new object 2, with the
    twenty elements of the extension; object 1 still has its eight. *)
Example totdev_extend_on_squares :
  (r ← totdev_extend_on 1 {[1%positive := squares]};
   Some (fst (fst r), alen <$> snd r !! 1%positive,
         alen <$> snd r !! 2%positive))
  = Some (2%positive, Some 8, Some 20).
Proof. vm_compute. reflexivity. Qed.

(** ** C10: a falsy averaging factor *)

(** Fifteen of the seventeen getters, and both conversions, use [m] only
    after [m = m || 1]: called with [0] or without [m] they do what they do
    with [1]. *)
Lemma falsy_m_is_one (g : getter) (d : Dataset) :
  g <> GMtotdev -> g <> GHtotdev ->
  run g (given 0) d = run g (given 1) d
  /\ run g omitted d = run g (given 1) d.
Proof. intros H1 H2. destruct g; try congruence; split; reflexivity. Qed.

Lemma conversions_falsy_m_is_one (a : list float) :
  phaseToFreq a (given 0) = phaseToFreq a (given 1)
  /\ phaseToFreq a omitted = phaseToFreq a (given 1)
  /\ freqToPhase a (given 0) = freqToPhase a (given 1)
  /\ freqToPhase a omitted = freqToPhase a (given 1).
Proof. repeat split. Qed.

(** C10, where the code departs from it.  [getMtotdev] and [getHtotdev]
    compute [half = Math.floor((3 * m + 1) / 2)] from [m] as passed, before
    [m = m || 1]: on the dataset loaded with [squares] they return NaN for
    [m = 0] and for [m] omitted, and a number for [m = 1]. *)
Theorem total_getters_falsy_m :
  fst <$> getMtotdev (given 0) (with_phase squares) = Some nan
  /\ fst <$> getMtotdev omitted (with_phase squares) = Some nan
  /\ is_nan <$> (fst <$> getMtotdev (given 1) (with_phase squares))
     = Some false
  /\ fst <$> getHtotdev (given 0) (with_phase squares) = Some nan
  /\ fst <$> getHtotdev omitted (with_phase squares) = Some nan
  /\ is_nan <$> (fst <$> getHtotdev (given 1) (with_phase squares))
     = Some false.
Proof. vm_compute. repeat split. Qed.

(** * Further properties of the code *)

(** ** The memoization table, continued *)

(** What a getter has returned for [m] it returns again, without a change
    of the dataset, for every [m'] with the same [m || 1]: [0], no argument
    and [1] share one entry, also where the first call computed something
    else than a call with [1] would have. *)
Theorem memo_replay (g : getter) (m m' : arg) (d d' : Dataset) (v : float) :
  run g m d = Some (v, d') ->
  or1 m' = or1 m ->
  run g m' d' = Some (v, d').
Proof.
  intros H E. apply run_hit. rewrite E. eapply run_returns_entry, H.
Qed.

Lemma memo_replay_witness :
  run GMtotdev (given 1) polluted = Some (nan, polluted).
Proof.
  apply (memo_replay GMtotdev (given 0) (given 1) (with_phase squares));
    [vm_compute; reflexivity | reflexivity].
Defined.

(** On a dataset loaded once, what one of the fourteen getters that use
    only the coerced [m] returns, memoized or not, is what it computes from
    the sample arrays with an empty table. *)
Theorem memoized_is_recomputed (g : getter) (m : arg) (d d' : Dataset)
    (v : float) :
  loaded_once d ->
  coerces g = true ->
  run g m d = Some (v, d') ->
  computed g (or1 m) d = Some v.
Proof.
  intros Hl Hc H. apply loaded_once_inv in Hl as [Hs _].
  exact (computes_fresh g m d d' v Hs Hc H).
Qed.

Lemma memoized_is_recomputed_witness :
  computed GAdev (or1 (given 1)) queried = Some (sqrt 2)%float.
Proof.
  apply (memoized_is_recomputed GAdev (given 1) queried queried).
  - apply (once_get (with_phase squares) queried GAdev (given 1)
             (sqrt 2)%float).
    + apply (once_phase 0 None "now" squares). vm_compute. reflexivity.
    + vm_compute. reflexivity.
  - reflexivity.
  - vm_compute. reflexivity.
Defined.

(** [getMtotdev] is not among them: after [getMtotdev(0)] on [squares],
    [getMtotdev(1)] answers the memoized NaN, and computes a number. *)
Example mtotdev_not_recomputed :
  fst <$> run GMtotdev (given 1) polluted = Some nan
  /\ is_nan <$> computed GMtotdev 1 polluted = Some false.
Proof. vm_compute. split; reflexivity. Qed.

Lemma value_is_computed (g : getter) (m : arg) (d : Dataset) :
  loaded_once d -> coerces g = true -> 1 <= or1 m ->
  fst <$> run g m d = computed g (or1 m) d.
Proof.
  intros Hl Hc Hm. destruct (run_total g m d Hm) as [[v d'] E].
  apply loaded_once_inv in Hl as [Hs _].
  rewrite (computes_fresh g m d d' v Hs Hc E). now rewrite E.
Qed.

(** ** The two sample arrays *)

(** On every dataset a program can build, [y] is one shorter than [x], and
    empty when [x] is. *)
Theorem lengths_invariant (d : Dataset) :
  reachable d -> alen (y d) = Z.max 0 (alen (x d) - 1).
Proof.
  induction 1 as [c nm now | d d' o _ IH H]; [reflexivity |].
  destruct o as [a | a | g m]; simpl in H.
  - unfold loadPhaseFromArray in H. rewrite phaseToFreq_spec in H.
    simpl in H. injection H as <-. simpl.
    now rewrite alen_fmap, alen_seqZ.
  - unfold loadFreqFromArray in H.
    destruct (freqToPhase_spec a omitted) as (r & Hr & Hlen & _).
    rewrite Hr in H. simpl in H. injection H as <-. simpl.
    pose proof (alen_nonneg a). lia.
  - destruct (run g m d) as [[v d1]|] eqn:E; [| discriminate].
    injection H as <-. apply run_frame in E.
    destruct E as (_ & _ & Hx & Hy & _). now rewrite Hx, Hy.
Qed.

Lemma lengths_invariant_witness :
  alen (y (with_phase squares)) = Z.max 0 (alen (x (with_phase squares)) - 1).
Proof.
  apply lengths_invariant.
  apply (reach_step blank _ (LoadPhase squares)).
  - apply (reach_new 0 None "now").
  - vm_compute. reflexivity.
Defined.

(** ** Estimators that coincide *)

(** With [m = 1], and so with [m = 0] or no [m], the loop of [getOadev]
    advances by 1 as that of [getAdev] does, and the loop of [getOhdev] as
    that of [getHdev]: on a dataset loaded once the two getters of each pair
    return the same number. *)
Theorem unit_step_agree (d : Dataset) (m : arg) :
  loaded_once d ->
  or1 m = 1 ->
  fst <$> getAdev m d = fst <$> getOadev m d
  /\ fst <$> getHdev m d = fst <$> getOhdev m d.
Proof.
  intros Hl E.
  pose proof (value_is_computed GAdev m d Hl eq_refl) as Ha.
  pose proof (value_is_computed GOadev m d Hl eq_refl) as Ho.
  pose proof (value_is_computed GHdev m d Hl eq_refl) as Hh.
  pose proof (value_is_computed GOhdev m d Hl eq_refl) as Hoh.
  cbn [run] in *. rewrite Ha, Ho, Hh, Hoh by lia. rewrite E.
  unfold computed. cbn [run].
  unfold getAdev, getOadev, getHdev, getOhdev, memo. simpl.
  rewrite !lookup_empty.
  unfold adev_loop, oadev_loop, hdev_loop, ohdev_loop. split.
  - destruct (sq_loop (diff2 (x d) 1) (alen (x d) - 2 * 1) 1)
      as [[i [s n]]|]; reflexivity.
  - destruct (sq_loop (diff3 (x d) 1) (alen (x d) - 3 * 1) 1)
      as [[i [s n]]|]; reflexivity.
Qed.

Lemma unit_step_agree_witness :
  fst <$> getAdev omitted queried = fst <$> getOadev omitted queried
  /\ fst <$> getHdev omitted queried = fst <$> getOhdev omitted queried.
Proof.
  apply unit_step_agree; [| reflexivity].
  apply (once_get (with_phase squares) queried GAdev (given 1) (sqrt 2)%float).
  - apply (once_phase 0 None "now" squares). vm_compute. reflexivity.
  - vm_compute. reflexivity.
Defined.

(** ** Which calls return *)

(** A loop whose step is not positive and whose condition holds at the
    start and below never comes to an end, whatever the fuel. *)
Lemma for_loop_diverges {St : Type} (fuel : nat) (cond : Z -> bool)
    (step : Z) (body : Z -> St -> option St) (i : Z) (s : St) :
  step <= 0 ->
  (forall j, j <= i -> cond j = true) ->
  for_loop fuel cond step body i s = None.
Proof.
  intros Hs Hc. revert i s Hc. induction fuel as [|fuel IH]; intros i s Hc;
    simpl; rewrite (Hc i) by lia; [reflexivity |].
  destruct (body i s) as [s'|]; [| reflexivity].
  apply IH. intros j Hj. apply Hc. lia.
Qed.

Lemma for_lt_diverges {St : Type} (bound step : Z)
    (body : Z -> St -> option St) (i0 : Z) (s : St) :
  step <= 0 -> i0 < bound -> for_lt bound step body i0 s = None.
Proof.
  intros Hs Hb. unfold for_lt. apply for_loop_diverges; [assumption |].
  intros j Hj. apply Z.ltb_lt. lia.
Qed.

Lemma memo_none (s : stat) (m : Z)
    (compute : Dataset -> option (float * Dataset)) (d : Dataset) :
  values d !! (s, m) = None -> compute d = None -> memo s m compute d = None.
Proof. intros Hn Hc. unfold memo. now rewrite Hn, Hc. Qed.



(** With a negative [m] and nothing memoized for it, the getters whose loop
    advances by [m] never return: [getOadev] and [getOhdev] on every
    dataset, the windowed getters and [getStdev] as soon as their array has
    a sample. *)
Theorem negative_m_never_returns (g : getter) (m : Z) (d : Dataset) :
  m < 0 ->
  steps_by_m g d = true ->
  values d !! (own g, m) = None ->
  run g (given m) d = None.
Proof.
  intros Hm Hg Hn.
  assert (Hor : or1 (given m) = m) by (apply or1_given; lia).
  pose proof (alen_nonneg (x d)) as Hx.
  destruct g; try discriminate Hg; cbn [run own steps_by_m] in *;
    unfold_getters; rewrite Hor; (apply memo_none; [assumption |]);
    try apply Z.ltb_lt in Hg;
    unfold avg_loop, ext_loop, oadev_loop, ohdev_loop, sq_loop;
    try (rewrite for_lt_diverges by lia; reflexivity).
  (* getStdev *)
  destruct (getFreqAvg (given m) d) as [[a d1]|]; simpl; [| reflexivity].
  rewrite for_lt_diverges by lia. reflexivity.
Qed.

Lemma negative_m_never_returns_witness :
  run GOadev (given (-1)) (with_phase squares) = None.
Proof.
  apply negative_m_never_returns; [lia | reflexivity |].
  vm_compute. reflexivity.
Defined.

(** ** How many terms, and how many samples are enough *)

Lemma fold_mdev_count (diff : Z -> float) (l : list Z) (v sum : float)
    (n : Z) :
  exists v' sum',
    foldM (fun i '(v, sum, n) =>
             let v := (v + diff i)%float in
             Some (v, (sum + v * v)%float, n + 1)) l (v, sum, n)
    = Some (v', sum', n + alen l).
Proof.
  revert v sum n. induction l as [|i l IH]; intros v sum n; simpl.
  - exists v, sum. unfold alen. simpl. do 2 f_equal. lia.
  - destruct (IH (v + diff i)%float
                (sum + (v + diff i) * (v + diff i))%float (n + 1))
      as (v' & sum' & E).
    exists v', sum'. etransitivity; [exact E |].
    unfold alen. simpl length. do 2 f_equal. lia.
Qed.

Lemma term_count_eq (e : estimator) (d : Dataset) (m : Z) :
  1 <= m -> term_count e d m = Some (count_of e (sample_count e d) m).
Proof.
  intros Hm. destruct e; cbn [term_count count_of sample_count].
  - rewrite adev_loop_spec. simpl. unfold adev_terms.
    now rewrite alen_fmap, alen_seqZ.
  - unfold oadev_loop. rewrite sq_loop_steps by lia. simpl. unfold steps.
    rewrite alen_fmap, alen_seqZ. do 2 f_equal.
    replace (alen (x d) - 2 * m + m - 1)
      with (alen (x d) - 2 * m - 0 - 1 + 1 * m) by lia.
    now rewrite Z.div_add by lia.
  - destruct (mdev_loop_total (x d) m) as [[s n] E]. rewrite E. simpl.
    unfold mdev_loop in E.
    destruct (for_loop _ _ _ _ _ _) as [[i v]|]; [| discriminate].
    simpl in E. rewrite for_lt_one in E.
    destruct (fold_mdev_count (diff3 (x d) m) (seqZ 0 (alen (x d) - 3 * m - 0))
                v (0 + v * v)%float (0 + 1)) as (v' & s' & Ef).
    cbv zeta in Ef. rewrite Ef in E. simpl in E. injection E as _ <-.
    rewrite alen_seqZ. do 2 f_equal. lia.
  - unfold hdev_loop. rewrite sq_loop_steps by lia. simpl.
    rewrite steps_one, alen_seqZ. do 2 f_equal. lia.
  - unfold ohdev_loop. rewrite sq_loop_steps by lia. simpl. unfold steps.
    rewrite alen_fmap, alen_seqZ. do 2 f_equal.
    replace (alen (x d) - 3 * m + m - 1)
      with (alen (x d) - 3 * m - 0 - 1 + 1 * m) by lia.
    now rewrite Z.div_add by lia.
  - destruct (Z.leb_spec 2 (alen (x d))) as [HN | HN]; cbn [andb].
    + rewrite totdev_loop_spec by assumption. cbv zeta.
      destruct (Z.leb_spec (alen (x d) - 2 + alen (x d) + m - 1)
                           (3 * alen (x d) - 4));
        destruct (Z.leb_spec m (alen (x d) - 1)); try lia; simpl;
        [| reflexivity].
      rewrite alen_fmap, alen_seqZ. do 2 f_equal. lia.
    + unfold totdev_loop. rewrite totdev_extend_spec. simpl.
      rewrite Z.max_l by lia.
      destruct (Z.leb_spec (0 + alen (x d) + m - 1) (3 * alen (x d) - 4));
        [lia | reflexivity].
  - destruct (tot_count (x d) (half_of (given m)) m) as [s ->]. reflexivity.
  - destruct (tot_count (y d) (half_of (given m)) m) as [s ->]. reflexivity.
Qed.

Lemma enough_samples (e : estimator) (N m : Z) :
  1 <= m -> 0 <= N -> (3 < count_of e N m <-> min_samples e m <= N).
Proof.
  intros Hm HN. destruct e; cbn [count_of min_samples]; try lia.
  - split; intros H.
    + destruct (Z.le_gt_cases (5 * m + 1) N) as [|Hlt]; [assumption |].
      exfalso.
      assert ((N - 2 * m + m - 1) `div` m < 4)
        by (apply Z.div_lt_upper_bound; lia).
      lia.
    + assert (4 <= (N - 2 * m + m - 1) `div` m)
        by (apply Z.div_le_lower_bound; lia).
      lia.
  - split; intros H.
    + destruct (Z.le_gt_cases (6 * m + 1) N) as [|Hlt]; [assumption |].
      exfalso.
      assert ((N - 3 * m + m - 1) `div` m < 4)
        by (apply Z.div_lt_upper_bound; lia).
      lia.
    + assert (4 <= (N - 3 * m + m - 1) `div` m)
        by (apply Z.div_le_lower_bound; lia).
      lia.
  - destruct (Z.leb_spec 2 N); destruct (Z.leb_spec m (N - 1)); simpl; lia.
Qed.

(** For every [m >= 1] each of the eight gated estimators reaches its test
    [n > MIN_SAMPLES] with a count that depends only on [m] and on the
    number [N] of samples: [N - 2m] for ADEV, [ceil((N - 2m) / m)] for
    OADEV, [1 + (N - 3m)] for MDEV, [N - 3m] for HDEV, [ceil((N - 3m) / m)]
    for OHDEV, [N - 3m + 1] for MTOTDEV and HTOTDEV (negative ones read as
    0), and [N - 2] for TOTDEV when [m <= N - 1], else 0.  The test passes
    exactly when [N] is at least [2m + 4], [5m + 1], [3m + 3], [3m + 4],
    [6m + 1], [max 6 (m + 1)], [3m + 3] and [3m + 3]. *)
Theorem term_count_closed (e : estimator) (d : Dataset) (m : Z) :
  1 <= m ->
  term_count e d m = Some (count_of e (sample_count e d) m)
  /\ (3 < count_of e (sample_count e d) m
      <-> min_samples e m <= sample_count e d).
Proof.
  intros Hm. split; [now apply term_count_eq |].
  apply enough_samples; [assumption |].
  destruct e; apply alen_nonneg.
Qed.

Lemma term_count_closed_witness :
  term_count EOadev (with_phase squares) 1
  = Some (count_of EOadev (sample_count EOadev (with_phase squares)) 1)
  /\ (3 < count_of EOadev (sample_count EOadev (with_phase squares)) 1
      <-> min_samples EOadev 1 <= sample_count EOadev (with_phase squares)).
Proof. apply term_count_closed. lia. Defined.

(** With fewer samples than that, the estimator returns exactly [0] and
    memoizes it: on every dataset loaded once, and on every dataset at all
    when nothing is memoized for [m]. *)
Theorem too_few_samples_give_zero (e : estimator) (d : Dataset) (m : Z) :
  1 <= m ->
  loaded_once d \/ values d !! (own (est_getter e), m) = None ->
  sample_count e d < min_samples e m ->
  run (est_getter e) (given m) d
  = Some (zero, store (own (est_getter e)) m zero d).
Proof.
  intros Hm H Hlt.
  assert (Hc : forall d0, sample_count e d0 = sample_count e d ->
                          count_of e (sample_count e d0) m <= 3).
  { intros d0 ->.
    pose proof (enough_samples e (sample_count e d) m Hm) as Hs.
    assert (0 <= sample_count e d) by (destruct e; apply alen_nonneg).
    lia. }
  destruct (values d !! (own (est_getter e), m)) as [w|] eqn:E.
  - destruct H as [Hl | Hn]; [| discriminate].
    assert (w = zero) as ->.
    { destruct (coerces (est_getter e)) eqn:Hco.
      - apply (loaded_once_entry _ m d w Hl Hco) in E; [| lia].
        destruct (few_terms_compute e (clear d) m Hm (lookup_empty _))
          as (n & Hn & Hz).
        rewrite term_count_eq in Hn by assumption. injection Hn as <-.
        unfold computed in E. rewrite Hz in E.
        + now injection E as <-.
        + apply Hc. now destruct e.
      - apply loaded_once_inv in Hl as [_ Hg].
        assert (Hk : m <> 0) by lia.
        specialize (Hc d eq_refl).
        destruct e; try discriminate Hco;
          cbn [est_getter own count_of sample_count] in *.
        + apply (proj1 (Hg m w Hk) E). lia.
        + apply (proj2 (Hg m w Hk) E). lia. }
    rewrite store_id by assumption. apply run_hit.
    now rewrite or1_given by lia.
  - destruct (few_terms_compute e d m Hm E) as (n & Hn & Hz).
    rewrite term_count_eq in Hn by assumption. injection Hn as <-.
    apply Hz. now apply Hc.
Qed.

Lemma too_few_samples_give_zero_witness :
  run (est_getter EHdev) (given 2) (with_phase squares)
  = Some (zero, store (own (est_getter EHdev)) 2 zero (with_phase squares)).
Proof.
  apply too_few_samples_give_zero; [lia | | vm_compute; reflexivity].
  right. vm_compute. reflexivity.
Defined.

(** ** An array that is not a whole number of blocks *)

Lemma sub_nan_r (a : float) : (a - nan)%float = nan.
Proof.
  apply Prim2SF_inj. rewrite sub_spec.
  destruct (Prim2SF a) as [ | | |s m e]; try destruct s; reflexivity.
Qed.

Lemma ltb_nan_l (a : float) : PrimFloat.ltb nan a = false.
Proof. rewrite ltb_spec. reflexivity. Qed.

Lemma gt_nan_l (a : float) : gt nan a = false.
Proof.
  unfold gt. rewrite ltb_spec.
  destruct (Prim2SF a) as [ | | |s m e]; try destruct s; reflexivity.
Qed.

(** The starts of the blocks of an array whose length is no multiple of
    [m]: those of the whole blocks, then that of the incomplete one. *)
Lemma block_starts_ragged (len m : Z) :
  1 <= m -> 0 <= len -> len `mod` m <> 0 ->
  block_starts len m
  = block_starts (len - len `mod` m) m ++ [len - len `mod` m].
Proof.
  intros Hm Hl Hr. unfold block_starts.
  pose proof (Z.mod_pos_bound len m ltac:(lia)) as Hb.
  pose proof (Z.div_mod len m ltac:(lia)) as Hd.
  pose proof (Z.div_pos len m Hl ltac:(lia)) as Hq.
  assert (E1 : (len + m - 1) `div` m = len `div` m + 1).
  { symmetry. apply (Z.div_unique _ _ _ (len `mod` m - 1)); lia. }
  assert (E2 : (len - len `mod` m + m - 1) `div` m = len `div` m).
  { symmetry. apply (Z.div_unique _ _ _ (m - 1)); lia. }
  rewrite E1, E2, seqZ_app, fmap_app by lia. simpl.
  do 2 f_equal. lia.
Qed.

Lemma fsum_app_nan (l : list float) : fsum (l ++ [nan]) = nan.
Proof. unfold fsum. rewrite fold_left_app. simpl. apply add_nan_r. Qed.

Lemma avg_spec_ragged (a : list float) (m : Z) :
  1 <= m -> alen a `mod` m <> 0 -> avg_spec a m = nan.
Proof.
  intros Hm Hr. pose proof (alen_nonneg a) as Hl.
  pose proof (Z.mod_pos_bound (alen a) m ltac:(lia)) as Hb.
  pose proof (Z.mod_le (alen a) m Hl ltac:(lia)) as Hle.
  unfold avg_spec. rewrite block_starts_ragged, fmap_app by assumption.
  rewrite list_fmap_singleton, block_mean_beyond by lia.
  now rewrite fsum_app_nan, mul_nan_l, div_nan_l.
Qed.

(** When the length of the array is no multiple of [m], the last block of
    the average getters reaches beyond the array: [getPhaseAvg(m)] and
    [getFreqAvg(m)] return NaN and memoize it, on every dataset loaded once
    and on every dataset at all when nothing is memoized for [m]. *)
Theorem ragged_average_is_nan (s : series) (d : Dataset) (m : Z) :
  1 <= m ->
  alen (samples s d) `mod` m <> 0 ->
  loaded_once d \/ values d !! (own (avg_of s), m) = None ->
  run (avg_of s) (given m) d = Some (nan, store (own (avg_of s)) m nan d).
Proof.
  intros Hm Hr H.
  rewrite (average_by_lifecycle s d m Hm H).
  now rewrite avg_spec_ragged.
Qed.

Lemma ragged_average_is_nan_witness :
  run (avg_of Phase) (given 3) (with_phase squares)
  = Some (nan, store (own (avg_of Phase)) 3 nan (with_phase squares)).
Proof.
  apply ragged_average_is_nan; [lia | vm_compute; discriminate |].
  right. vm_compute. reflexivity.
Defined.

(** The extremum loops as folds over the block averages. *)
Lemma ext_loop_spec (better : float -> float -> bool) (init : float)
    (a : list float) (m : Z) :
  1 <= m ->
  ext_loop better init a m
  = Some (m * Z.max 0 ((alen a - 0 - 1) `div` m + 1),
          fold_left (keep better)
            (block_mean a m <$> block_starts (alen a) m) init).
Proof.
  intros Hm. unfold ext_loop. rewrite for_lt_steps by assumption.
  rewrite (foldM_ext _
             (fun i cur => Some (keep better cur (block_mean a m i)))).
  - rewrite foldM_pure, steps_block_starts by assumption.
    do 2 f_equal. generalize (block_starts (alen a) m) init.
    induction l as [|i l IH]; intros c; simpl; auto.
  - intros i c. now rewrite _arrayAvg_spec.
Qed.

Lemma rd_take (a : list float) (k i : Z) :
  i < k -> (take (Z.to_nat k) a).[i] = a.[i].
Proof.
  intros H. unfold rd, aget. destruct (Z.ltb_spec i 0); [reflexivity |].
  now rewrite lookup_take_lt by lia.
Qed.

Lemma alen_whole (a : list float) (m : Z) :
  1 <= m -> alen (whole a m) = alen a - alen a `mod` m.
Proof.
  intros Hm. pose proof (Z.mod_pos_bound (alen a) m ltac:(lia)) as Hb.
  pose proof (Z.mod_le (alen a) m (alen_nonneg a) ltac:(lia)) as Hle.
  unfold whole, alen in *. rewrite length_take. lia.
Qed.

Lemma block_mean_whole (a : list float) (m : Z) :
  1 <= m ->
  block_mean (whole a m) m <$> block_starts (alen a - alen a `mod` m) m
  = block_mean a m <$> block_starts (alen a - alen a `mod` m) m.
Proof.
  intros Hm. pose proof (alen_nonneg a) as Hl.
  pose proof (Z.mod_pos_bound (alen a) m ltac:(lia)) as Hb.
  pose proof (Z.div_mod (alen a) m ltac:(lia)) as Hd.
  apply list_fmap_ext. intros n i Hi.
  unfold block_starts in Hi. apply list_lookup_fmap_Some in Hi.
  destruct Hi as (k & -> & Hk). apply lookup_seqZ in Hk as [-> Hk].
  assert (E2 : (alen a - alen a `mod` m + m - 1) `div` m = alen a `div` m).
  { symmetry. apply (Z.div_unique _ _ _ (m - 1)); lia. }
  rewrite E2 in Hk.
  unfold block_mean. do 2 f_equal. apply list_fmap_ext. intros n' j Hj.
  apply lookup_seqZ in Hj as [-> Hj]. unfold whole. apply rd_take. nia.
Qed.

Lemma ext_loop_whole (better : float -> float -> bool) (init : float)
    (a : list float) (m : Z) :
  1 <= m ->
  (forall c, better nan c = false) ->
  snd <$> ext_loop better init a m
  = snd <$> ext_loop better init (whole a m) m.
Proof.
  intros Hm Hnan. pose proof (alen_nonneg a) as Hl.
  pose proof (Z.mod_pos_bound (alen a) m ltac:(lia)) as Hb.
  rewrite !ext_loop_spec by assumption. simpl. f_equal.
  rewrite alen_whole by assumption.
  destruct (Z.eq_dec (alen a `mod` m) 0) as [E | Hr].
  - rewrite (block_mean_whole a m Hm). now rewrite E, Z.sub_0_r.
  - rewrite (block_starts_ragged (alen a) m) by assumption.
    pose proof (Z.mod_le (alen a) m Hl ltac:(lia)) as Hle.
    rewrite fmap_app, fold_left_app, list_fmap_singleton. simpl.
    rewrite block_mean_beyond by lia. unfold keep at 1. rewrite Hnan.
    now rewrite block_mean_whole.
Qed.

(** The four extremum getters pass over a block that reaches beyond the
    array, its average being NaN: when they compute, they return what they
    return on the array cut to a whole number of blocks of [m] samples. *)
Theorem extremes_ignore_partial_block (s : series) (d : Dataset) (m : Z) :
  1 <= m ->
  values d !! (own (max_of s), m) = None ->
  values d !! (own (min_of s), m) = None ->
  fst <$> run (max_of s) (given m) d
  = fst <$> run (max_of s) (given m) (cut s m d)
  /\ fst <$> run (min_of s) (given m) d
     = fst <$> run (min_of s) (given m) (cut s m d).
Proof.
  intros Hm Hmax Hmin.
  assert (Hor : or1 (given m) = m) by (apply or1_given; lia).
  pose proof (ext_loop_whole gt neg_infinity (samples s d) m Hm gt_nan_l)
    as Egt.
  pose proof (ext_loop_whole PrimFloat.ltb infinity (samples s d) m Hm
                ltb_nan_l) as Elt.
  destruct s; cbn [samples max_of min_of own run cut] in *;
    unfold getPhaseMax, getPhaseMin, getFreqMax, getFreqMin, memo;
    rewrite Hor; cbn [values x y]; rewrite Hmax, Hmin;
    (split;
     [ destruct (ext_loop gt _ _ _) as [[i v]|];
       destruct (ext_loop gt _ (whole _ _) _) as [[i' v']|];
       simpl in *; congruence
     | destruct (ext_loop PrimFloat.ltb _ _ _) as [[i v]|];
       destruct (ext_loop PrimFloat.ltb _ (whole _ _) _) as [[i' v']|];
       simpl in *; congruence ]).
Qed.

Lemma extremes_ignore_partial_block_witness :
  fst <$> run (max_of Phase) (given 3) (with_phase squares)
  = fst <$> run (max_of Phase) (given 3) (cut Phase 3 (with_phase squares))
  /\ fst <$> run (min_of Phase) (given 3) (with_phase squares)
     = fst <$> run (min_of Phase) (given 3) (cut Phase 3 (with_phase squares)).
Proof.
  apply extremes_ignore_partial_block;
    [lia | vm_compute; reflexivity | vm_compute; reflexivity].
Defined.

Lemma foldM_nan (body : Z -> float -> option float) (l : list Z) (s : float) :
  (forall i s, body i s = Some nan) ->
  l <> [] -> foldM body l s = Some nan.
Proof.
  intros Hb Hl. destruct l as [|i l]; [congruence |]. clear Hl.
  simpl. rewrite Hb. clear s i.
  induction l as [|i l IH]; simpl; [reflexivity |]. now rewrite Hb.
Qed.

(** [getStdev(m)] on a call that computes both its own entry and the
    average it asks for. *)
Lemma stdev_ragged_computes (d : Dataset) (m : Z) :
  1 <= m ->
  alen (y d) `mod` m <> 0 ->
  values d !! (stdev, m) = None ->
  values d !! (yavg, m) = None ->
  fst <$> getStdev (given m) d = Some nan.
Proof.
  intros Hm Hr Hs Ha.
  assert (Hor : or1 (given m) = m) by (apply or1_given; lia).
  assert (Hpos : 0 < alen (y d)).
  { pose proof (alen_nonneg (y d)).
    destruct (Z.eq_dec (alen (y d)) 0) as [E |]; [| lia].
    rewrite E in Hr. now rewrite Z.mod_0_l in Hr by lia. }
  pose proof (average_computes Freq d m Hm) as Havg.
  cbn [run avg_of own samples] in Havg.
  rewrite avg_spec_ragged in Havg by assumption.
  unfold getStdev, memo. rewrite Hor, Hs, Havg.
  2: { intros w Hw. congruence. }
  simpl. rewrite for_lt_steps by assumption.
  rewrite (foldM_nan _ (steps 0 (alen (y d)) m)).
  - simpl. now rewrite div_nan_l.
  - intros i s. unfold _freqAvg. simpl. rewrite _arrayAvg_spec. simpl.
    now rewrite sub_nan_r, mul_nan_l, add_nan_r.
  - rewrite steps_cons by lia. discriminate.
Qed.

(** When the length of [y] is no multiple of [m], [getStdev(m)] returns
    NaN: the average it subtracts is NaN.  This holds on every dataset
    loaded once, and on every dataset at all when neither
    [values.stdev[m]] nor [values.yavg[m]] is set. *)
Theorem ragged_stdev_is_nan (d : Dataset) (m : Z) :
  1 <= m ->
  alen (y d) `mod` m <> 0 ->
  loaded_once d
  \/ (values d !! (stdev, m) = None /\ values d !! (yavg, m) = None) ->
  fst <$> getStdev (given m) d = Some nan.
Proof.
  intros Hm Hr [Hl | [Hs Ha]]; [| now apply stdev_ragged_computes].
  assert (Hor : or1 (given m) = m) by (apply or1_given; lia).
  pose proof (value_is_computed GStdev (given m) d Hl eq_refl) as Hv.
  cbn [run] in Hv. rewrite Hv, Hor by lia. unfold computed. cbn [run].
  apply stdev_ragged_computes; try assumption; apply lookup_empty.
Qed.

Lemma ragged_stdev_is_nan_witness :
  fst <$> getStdev (given 2) (with_phase squares) = Some nan.
Proof.
  apply ragged_stdev_is_nan; [lia | vm_compute; discriminate |].
  right. split; vm_compute; reflexivity.
Defined.

(** ** The time total deviation *)

Lemma not_ttotdev_writes (g : getter) (m k : Z) :
  g <> GTtotdev -> (ttotdev, k) ∉ (fun s => (s, m)) <$> writes g.
Proof.
  intros Hg Hin. destruct g; simpl in Hin; try congruence;
    rewrite ?elem_of_cons, elem_of_nil in Hin; intuition discriminate.
Qed.

Lemma getTtotdev_preserves (m : arg) (d d' : Dataset) (v : float) :
  ttotdev_from_mtotdev d -> getTtotdev m d = Some (v, d') ->
  ttotdev_from_mtotdev d'.
Proof.
  intros Hinv. unfold getTtotdev, memo.
  pose proof (or1_nonzero m) as Hnz.
  destruct (values d !! (ttotdev, or1 m)) as [w|] eqn:E.
  { now intros [= <- <-]. }
  simpl. destruct (getMtotdev (given (or1 m)) d) as [[a d2]|] eqn:Em;
    simpl; [| discriminate].
  intros [= <- <-].
  pose proof Em as Hl. unfold getMtotdev in Hl. apply memo_lookup in Hl.
  apply getMtotdev_frame in Em. rewrite or1_given in * by assumption.
  destruct Em as (_ & _ & _ & _ & Hout & Hmono).
  intros k t Hk. simpl in *.
  destruct (decide (k = or1 m)) as [-> | Hne].
  - rewrite lookup_insert_eq in Hk. injection Hk as <-.
    exists a. split; [| reflexivity].
    rewrite lookup_insert_ne by congruence. assumption.
  - rewrite lookup_insert_ne in Hk by congruence.
    rewrite Hout in Hk
      by (rewrite elem_of_cons, elem_of_nil; intuition discriminate).
    destruct (Hinv k t Hk) as (u & Hu & ->).
    exists u. split; [| reflexivity].
    rewrite lookup_insert_ne by congruence. now apply Hmono.
Qed.

Lemma reachable_ttotdev_from_mtotdev (d : Dataset) :
  reachable d -> ttotdev_from_mtotdev d.
Proof.
  induction 1 as [c nm now | d d' o _ IH H].
  { intros k t Hk. simpl in Hk. now rewrite lookup_empty in Hk. }
  destruct o as [a | a | g m].
  - apply load_values in H; [| exact I].
    unfold ttotdev_from_mtotdev. now rewrite H.
  - apply load_values in H; [| exact I].
    unfold ttotdev_from_mtotdev. now rewrite H.
  - simpl in H. destruct (run g m d) as [[v d1]|] eqn:E; [| discriminate].
    injection H as <-.
    destruct (decide (g = GTtotdev)) as [-> | Hg].
    + eapply getTtotdev_preserves; eauto.
    + apply run_frame in E. destruct E as (_ & _ & _ & _ & Hout & Hmono).
      intros k t Hk. rewrite Hout in Hk by now apply not_ttotdev_writes.
      destruct (IH k t Hk) as (u & Hu & ->).
      exists u. split; [now apply Hmono | reflexivity].
Qed.

Lemma getMtotdev_cached (d : Dataset) (m : Z) (v : float) :
  m <> 0 ->
  values d !! (mtotdev, m) = Some v -> getMtotdev (given m) d = Some (v, d).
Proof.
  intros Hm H. unfold getMtotdev. rewrite or1_given by assumption.
  now apply memo_hit.
Qed.

(** On every dataset a program can build and for every [m >= 1] passed
    explicitly, [getMtotdev(m)] returns some [v] and [getTtotdev(m)]
    returns exactly [v * m / Math.sqrt(3)], whichever of the two is called
    first and whatever was memoized before. *)
Theorem getTtotdev_is_scaled_getMtotdev (d : Dataset) (m : Z) :
  reachable d ->
  1 <= m ->
  exists v d1 d2,
    getMtotdev (given m) d = Some (v, d1)
    /\ getTtotdev (given m) d = Some ((v * num m / sqrt3)%float, d2)
    /\ fst <$> getMtotdev (given m) d2 = Some v
    /\ fst <$> getTtotdev (given m) d1 = Some (v * num m / sqrt3)%float.
Proof.
  intros Hr Hm. assert (Hnz : m <> 0) by lia.
  destruct (getMtotdev_total (given m) d) as [[v d1] Em].
  pose proof Em as Hl. unfold getMtotdev in Hl. apply memo_lookup in Hl.
  rewrite or1_given in Hl by assumption.
  assert (Hr1 : reachable d1).
  { apply (reach_step d d1 (Get GMtotdev (given m)) Hr). simpl.
    now rewrite Em. }
  apply reachable_ttotdev_from_mtotdev in Hr, Hr1.
  exists v, d1.
  assert (exists d2, getTtotdev (given m) d
                     = Some ((v * num m / sqrt3)%float, d2)
                     /\ values d2 !! (mtotdev, m) = Some v) as (d2 & Ht & Hv2).
  { unfold getTtotdev, memo. rewrite or1_given by assumption.
    destruct (values d !! (ttotdev, m)) as [t|] eqn:E.
    - destruct (Hr m t E) as (u & Hu & ->).
      rewrite (getMtotdev_cached d m u) in Em by assumption.
      injection Em as -> ->. eauto.
    - rewrite Em. simpl. eexists. split; [reflexivity |]. simpl.
      rewrite lookup_insert_ne by congruence. assumption. }
  exists d2. split; [assumption |]. split; [assumption |]. split.
  - now rewrite (getMtotdev_cached d2 m v).
  - unfold getTtotdev, memo. rewrite or1_given by assumption.
    destruct (values d1 !! (ttotdev, m)) as [t|] eqn:E.
    + destruct (Hr1 m t E) as (u & Hu & ->).
      rewrite Hl in Hu. now injection Hu as <-.
    + now rewrite (getMtotdev_cached d1 m v).
Qed.

Lemma getTtotdev_is_scaled_getMtotdev_witness :
  exists v d1 d2,
    getMtotdev (given 1) (with_phase squares) = Some (v, d1)
    /\ getTtotdev (given 1) (with_phase squares)
       = Some ((v * num 1 / sqrt3)%float, d2)
    /\ fst <$> getMtotdev (given 1) d2 = Some v
    /\ fst <$> getTtotdev (given 1) d1 = Some (v * num 1 / sqrt3)%float.
Proof.
  apply getTtotdev_is_scaled_getMtotdev; [| lia].
  apply (reach_step blank _ (LoadPhase squares)).
  - apply (reach_new 0 None "now").
  - vm_compute. reflexivity.
Defined.

(** ** Loading from a URL *)

Lemma line_middle (l1 l2 : list string) (s : string) :
  line (l1 ++ s :: l2) (alen l1) = Some s.
Proof.
  unfold line, alen. destruct (Z.ltb_spec (Z.of_nat (length l1)) 0); [lia |].
  rewrite Nat2Z.id. now rewrite list_lookup_middle.
Qed.

Lemma parse_fold (parseFloat : string -> float) (l2 l1 : list string)
    (acc : list float) :
  foldM (fun i x =>
           let n := match line (l1 ++ l2) i with
                    | Some s => parseFloat s
                    | None => nan
                    end in
           Some (if is_nan n then x else x ++ [n]))
        (seqZ (alen l1) (alen l2)) acc
  = Some (acc ++ numbers_of parseFloat l2).
Proof.
  revert l1 acc. induction l2 as [|s l2 IH]; intros l1 acc.
  - simpl. now rewrite app_nil_r.
  - rewrite seqZ_cons by (unfold alen; simpl; lia).
    cbn [foldM]. rewrite line_middle. cbv zeta.
    replace (Z.succ (alen l1)) with (alen (l1 ++ [s]))
      by (rewrite alen_app; unfold alen; simpl; lia).
    replace (Z.pred (alen (s :: l2))) with (alen l2)
      by (unfold alen; simpl length; lia).
    replace (l1 ++ s :: l2) with ((l1 ++ [s]) ++ l2)
      by (now rewrite <- app_assoc).
    rewrite IH. unfold numbers_of. simpl.
    destruct (is_nan (parseFloat s)); simpl; [reflexivity |].
    now rewrite <- app_assoc.
Qed.

Lemma parse_lines_spec (parseFloat : string -> float) (a : list string) :
  parse_lines parseFloat a = Some (alen a, numbers_of parseFloat a).
Proof.
  unfold parse_lines. rewrite for_lt_one, Z.sub_0_r.
  assert (H : foldM (fun i x =>
                       let n := match line a i with
                                | Some s => parseFloat s
                                | None => nan
                                end in
                       Some (if is_nan n then x else x ++ [n]))
                    (seqZ 0 (alen a)) []
              = Some (numbers_of parseFloat a))
    by exact (parse_fold parseFloat a [] []).
  cbv zeta in H. rewrite H. pose proof (alen_nonneg a). now rewrite Z.max_r by lia.
Qed.

(** Whatever [parseFloat] does: [loadPhaseFromURL] and [loadFreqFromURL]
    load, through [loadPhaseFromArray] and [loadFreqFromArray], exactly the
    numbers that [parseFloat] finds on the lines of the response, in the
    order of the lines; the lines where it finds none are skipped, so that
    no NaN is loaded and there are at most as many samples as lines. *)
Theorem from_url_spec (parseFloat : string -> float) (s : series)
    (response : string) (d : Dataset) :
  let a := split_crlf EmptyString response in
  from_url s parseFloat response d
  = from_array s (numbers_of parseFloat a) d
  /\ Forall (fun n => is_nan n = false) (numbers_of parseFloat a)
  /\ alen (numbers_of parseFloat a) <= alen a.
Proof.
  intros a. split; [| split].
  - destruct s; cbn [from_url from_array];
      unfold loadPhaseFromURL, loadFreqFromURL;
      now rewrite parse_lines_spec.
  - unfold numbers_of. apply Forall_forall. intros n Hn.
    apply list_elem_of_In, filter_In in Hn as [_ Hn].
    now destruct (is_nan n).
  - unfold numbers_of, alen.
    pose proof (filter_length_le (fun n => negb (is_nan n))
                  (parseFloat <$> a)) as H.
    rewrite length_fmap in H. lia.
Qed.

Lemma append_empty (cur : string) : String.append cur EmptyString = cur.
Proof.
  induction cur as [|b cur IH]; [reflexivity |].
  change (String b (String.append cur EmptyString) = String b cur).
  now rewrite IH.
Qed.

Lemma append_one (cur t : string) (c : Ascii.ascii) :
  String.append (String.append cur (String c EmptyString)) t
  = String.append cur (String c t).
Proof.
  induction cur as [|b cur IH]; [reflexivity |].
  change (String b
            (String.append (String.append cur (String c EmptyString)) t)
          = String b (String.append cur (String c t))).
  now rewrite IH.
Qed.

Lemma split_crlf_two (cur rest : string) (c c' : Ascii.ascii) :
  split_crlf cur (String c (String c' rest))
  = if Ascii.eqb c CR && Ascii.eqb c' LF
    then cur :: split_crlf EmptyString rest
    else split_crlf (String.append cur (String c EmptyString))
           (String c' rest).
Proof. reflexivity. Qed.

Lemma has_crlf_two (rest : string) (c c' : Ascii.ascii) :
  has_crlf (String c (String c' rest))
  = (Ascii.eqb c CR && Ascii.eqb c' LF) || has_crlf (String c' rest).
Proof. reflexivity. Qed.

Lemma split_without_crlf (s cur : string) :
  has_crlf s = false -> split_crlf cur s = [String.append cur s].
Proof.
  revert cur. induction s as [|c rest IH]; intros cur H.
  - cbn [split_crlf]. now rewrite append_empty.
  - destruct rest as [|c' rest'].
    + reflexivity.
    + rewrite has_crlf_two in H. apply orb_false_iff in H as [H1 H2].
      rewrite split_crlf_two, H1, (IH _ H2). now rewrite append_one.
Qed.

(** A response in which no carriage return is followed by a line feed, a
    file with Unix line ends for one, is a single line to the loaders: the
    one number [parseFloat] finds at its start is loaded, or none. *)
Theorem no_crlf_single_line (parseFloat : string -> float) (s : series)
    (response : string) (d : Dataset) :
  has_crlf response = false ->
  from_url s parseFloat response d
  = from_array s (numbers_of parseFloat [response]) d
  /\ alen (numbers_of parseFloat [response]) <= 1.
Proof.
  intros H. split.
  - destruct s; cbn [from_url from_array];
      unfold loadPhaseFromURL, loadFreqFromURL;
      rewrite parse_lines_spec, (split_without_crlf _ _ H); reflexivity.
  - unfold numbers_of. simpl.
    destruct (is_nan (parseFloat response)); unfold alen; simpl; lia.
Qed.

Lemma no_crlf_single_line_witness :
  from_url Phase parse_one unix_text blank
  = from_array Phase (numbers_of parse_one [unix_text]) blank
  /\ alen (numbers_of parse_one [unix_text]) <= 1.
Proof. apply no_crlf_single_line. vm_compute. reflexivity. Defined.

(** On the text of three lines with Unix line ends, one sample is loaded. *)
Example unix_text_one_sample :
  x <$> from_url Phase parse_one unix_text blank = Some [num 1].
Proof. vm_compute. reflexivity. Qed.

(** ** Plots of the samples *)

Lemma fold_snoc {A : Type} (f : Z -> A) (l : list Z) (acc : list A) :
  fold_left (fun d i => d ++ [f i]) l acc = acc ++ (f <$> l).
Proof.
  revert acc. induction l as [|i l IH]; intros acc; simpl.
  - now rewrite app_nil_r.
  - rewrite IH. now rewrite <- app_assoc.
Qed.

Lemma plot_loop_spec (a : list float) (m : Z) :
  1 <= m ->
  plot_loop a m
  = Some (m * Z.max 0 ((alen a - 0 - 1) `div` m + 1),
          (fun i => (i, block_mean a m i)) <$> block_starts (alen a) m).
Proof.
  intros Hm. unfold plot_loop. rewrite for_lt_steps by assumption.
  rewrite (foldM_ext _ (fun i d => Some (d ++ [(i, block_mean a m i)]))).
  - rewrite foldM_pure, steps_block_starts by assumption.
    now rewrite (fold_snoc (fun i => (i, block_mean a m i))).
  - intros i d. now rewrite _arrayAvg_spec.
Qed.

(** With [m >= 1] after [m = m || 1], [getPhasePlot(m)] and
    [getFreqPlot(m)] return one series, labelled [x(m)] or [y(m)], with
    lines and points shown: one point for each block start
    [i = 0, m, 2m, ...] below the length of the array, at abscissa [i] and
    with the average of the block [a[i .. i+m-1]] as ordinate. *)
Theorem plot_spec (s : series) (m : arg) (d : Dataset) :
  1 <= or1 m ->
  plot_of s m d
  = Some {| plot_values :=
              [{| label :=
                    String.append (axis s)
                      (String.append "("
                         (String.append (text_of (or1 m)) ")"));
                  data :=
                    (fun i => (i, block_mean (samples s d) (or1 m) i))
                      <$> block_starts (alen (samples s d)) (or1 m) |}];
            lines_show := true; points_show := true |}.
Proof.
  intros Hm. destruct s; cbn [plot_of samples axis];
    unfold getPhasePlot, getFreqPlot;
    now rewrite plot_loop_spec.
Qed.

Lemma plot_spec_witness :
  plot_of Phase (given 3) (with_phase squares)
  = Some {| plot_values :=
              [{| label :=
                    String.append (axis Phase)
                      (String.append "("
                         (String.append (text_of (or1 (given 3))) ")"));
                  data :=
                    (fun i =>
                       (i, block_mean (samples Phase (with_phase squares))
                             (or1 (given 3)) i))
                      <$> block_starts
                            (alen (samples Phase (with_phase squares)))
                            (or1 (given 3)) |}];
            lines_show := true; points_show := true |}.
Proof. apply plot_spec. vm_compute. discriminate. Defined.

(** The average getter of a series returns the sum of the ordinates that
    the plot of the series shows for the same [m], times [m], divided by
    the length of the array. *)
Theorem average_from_plot (s : series) (d : Dataset) (m : Z) (p : flot) :
  1 <= m ->
  loaded_once d \/ values d !! (own (avg_of s), m) = None ->
  plot_of s (given m) d = Some p ->
  fst <$> run (avg_of s) (given m) d
  = Some (fsum (snd <$> concat (data <$> plot_values p)) * num m
          / num (alen (samples s d)))%float.
Proof.
  intros Hm H Hp.
  assert (Hor : or1 (given m) = m) by (apply or1_given; lia).
  rewrite (average_by_lifecycle s d m Hm H).
  destruct s; cbn [plot_of samples] in *;
    unfold getPhasePlot, getFreqPlot in Hp;
    rewrite Hor, plot_loop_spec in Hp by assumption;
    injection Hp as <-; simpl;
    rewrite app_nil_r, <- list_fmap_compose; reflexivity.
Qed.

Lemma average_from_plot_witness :
  fst <$> run (avg_of Phase) (given 2) (with_phase squares)
  = Some (fsum (snd <$> concat
                  (data <$> plot_values
                     (default (mkFlot [] false false)
                        (plot_of Phase (given 2) (with_phase squares)))))
          * num 2
          / num (alen (samples Phase (with_phase squares))))%float.
Proof.
  apply average_from_plot; [lia | | vm_compute; reflexivity].
  right. vm_compute. reflexivity.
Defined.

(** ** An empty sample array *)

Lemma zero_mul_div_zero (f : float) : (zero * f / zero)%float = nan.
Proof.
  apply Prim2SF_inj. rewrite div_spec, mul_spec.
  destruct (Prim2SF f) as [[|]|[|]| |[|] m e]; reflexivity.
Qed.

Lemma block_starts_empty (m : Z) : 1 <= m -> block_starts 0 m = [].
Proof.
  intros Hm. unfold block_starts.
  rewrite Z.div_small by lia. reflexivity.
Qed.

(** What an extremum getter returns on a call that computes. *)
Lemma extreme_computes (g : getter) (better : float -> float -> bool)
    (init : float) (a : list float) (d : Dataset) (m : Z) :
  (g = GPhaseMax /\ better = gt /\ init = neg_infinity /\ a = x d)
  \/ (g = GPhaseMin /\ better = PrimFloat.ltb /\ init = infinity /\ a = x d)
  \/ (g = GFreqMax /\ better = gt /\ init = neg_infinity /\ a = y d)
  \/ (g = GFreqMin /\ better = PrimFloat.ltb /\ init = infinity /\ a = y d) ->
  1 <= m ->
  values d !! (own g, m) = None ->
  let v := fold_left (keep better)
             (block_mean a m <$> block_starts (alen a) m) init in
  run g (given m) d = Some (v, store (own g) m v d).
Proof.
  intros Hg Hm Hn v.
  assert (Hor : or1 (given m) = m) by (apply or1_given; lia).
  destruct Hg as [(-> & -> & -> & ->) | [(-> & -> & -> & ->)
                 | [(-> & -> & -> & ->) | (-> & -> & -> & ->)]]];
    cbn [run own] in *;
    unfold getPhaseMax, getPhaseMin, getFreqMax, getFreqMin; rewrite Hor;
    (apply memo_miss; [assumption |]);
    rewrite ext_loop_spec by assumption; reflexivity.
Qed.

(** On an empty sample array, the [y] of a dataset loaded with a single
    phase sample for one, and with [m >= 1], the loops of the windowed
    getters are not entered and nothing fails: the average getter returns
    NaN, which is [0 * m / 0], the maximum getter [-Infinity] and the
    minimum getter [Infinity].  This holds on every dataset loaded once,
    and on every dataset at all when the three entries are not yet set. *)
Theorem empty_array_windowed (s : series) (d : Dataset) (m : Z) :
  1 <= m ->
  alen (samples s d) = 0 ->
  loaded_once d
  \/ (values d !! (own (avg_of s), m) = None
      /\ values d !! (own (max_of s), m) = None
      /\ values d !! (own (min_of s), m) = None) ->
  run (avg_of s) (given m) d = Some (nan, store (own (avg_of s)) m nan d)
  /\ run (max_of s) (given m) d
     = Some (neg_infinity, store (own (max_of s)) m neg_infinity d)
  /\ run (min_of s) (given m) d
     = Some (infinity, store (own (min_of s)) m infinity d).
Proof.
  intros Hm He H.
  assert (Hmax : forall d0, samples s d0 = samples s d ->
            values d0 !! (own (max_of s), m) = None ->
            run (max_of s) (given m) d0
            = Some (neg_infinity, store (own (max_of s)) m neg_infinity d0)).
  { intros d0 Hs Hn.
    rewrite (extreme_computes (max_of s) gt neg_infinity (samples s d0) d0 m);
      try assumption.
    - now rewrite Hs, He, block_starts_empty.
    - destruct s; simpl; tauto. }
  assert (Hmin : forall d0, samples s d0 = samples s d ->
            values d0 !! (own (min_of s), m) = None ->
            run (min_of s) (given m) d0
            = Some (infinity, store (own (min_of s)) m infinity d0)).
  { intros d0 Hs Hn.
    rewrite (extreme_computes (min_of s) PrimFloat.ltb infinity
               (samples s d0) d0 m); try assumption.
    - now rewrite Hs, He, block_starts_empty.
    - destruct s; simpl; tauto. }
  assert (Hc : samples s (clear d) = samples s d) by now destruct s.
  repeat split.
  - rewrite (average_by_lifecycle s d m Hm) by tauto.
    unfold avg_spec. rewrite He, block_starts_empty by assumption.
    unfold fsum. simpl. now rewrite zero_mul_div_zero.
  - apply (by_lifecycle (max_of s) m neg_infinity d);
      [now destruct s | lia | now apply Hmax | | tauto].
    unfold computed. rewrite (Hmax (clear d) Hc (lookup_empty _)).
    reflexivity.
  - apply (by_lifecycle (min_of s) m infinity d);
      [now destruct s | lia | now apply Hmin | | tauto].
    unfold computed. rewrite (Hmin (clear d) Hc (lookup_empty _)).
    reflexivity.
Qed.

Lemma empty_array_windowed_witness :
  run (avg_of Freq) (given 2) (with_phase [num 5])
  = Some (nan, store (own (avg_of Freq)) 2 nan (with_phase [num 5]))
  /\ run (max_of Freq) (given 2) (with_phase [num 5])
     = Some (neg_infinity,
             store (own (max_of Freq)) 2 neg_infinity (with_phase [num 5]))
  /\ run (min_of Freq) (given 2) (with_phase [num 5])
     = Some (infinity,
             store (own (min_of Freq)) 2 infinity (with_phase [num 5])).
Proof.
  apply empty_array_windowed; [lia | vm_compute; reflexivity |].
  left. apply (once_phase 0 None "now" [num 5]). vm_compute. reflexivity.
Defined.

(** ** The order of the calls *)

Lemma run_same_samples (g : getter) (m : arg) (d d' : Dataset) (v : float) :
  run g m d = Some (v, d') -> clear d' = clear d.
Proof.
  intros H. apply run_frame in H. destruct H as (Hi & Hn & Hx & Hy & _).
  unfold clear. now rewrite Hi, Hn, Hx, Hy.
Qed.

(** On a dataset loaded once, what a getter that coerces [m] first returns
    for [m >= 1] does not depend on the calls made before it: after any
    further getter call it returns the number it would have returned
    without that call. *)
Theorem earlier_calls_do_not_matter (g g' : getter) (m m' : arg)
    (d d' : Dataset) (v' : float) :
  loaded_once d ->
  coerces g = true ->
  1 <= or1 m ->
  run g' m' d = Some (v', d') ->
  fst <$> run g m d' = fst <$> run g m d.
Proof.
  intros Hl Hc Hm H.
  assert (Hl' : loaded_once d') by (eapply once_get; eauto).
  rewrite (value_is_computed g m d' Hl' Hc Hm).
  rewrite (value_is_computed g m d Hl Hc Hm).
  unfold computed. now rewrite (run_same_samples g' m' d d' v' H).
Qed.

Lemma earlier_calls_do_not_matter_witness :
  fst <$> run GOadev (given 1) queried
  = fst <$> run GOadev (given 1) (with_phase squares).
Proof.
  apply (earlier_calls_do_not_matter GOadev GAdev (given 1) (given 1)
           (with_phase squares) queried (sqrt 2)%float).
  - apply (once_phase 0 None "now" squares). vm_compute. reflexivity.
  - reflexivity.
  - vm_compute. discriminate.
  - vm_compute. reflexivity.
Defined.
